(** * Verification of the state/vision core of daily-ai-slurper (NIKKE automation)

    Shallow embedding of
    - [src/core/state/manager.py]   : GameState, StateTransition, StateManager
    - [src/core/state/detection.py] : StateDetector.detect_state
    - [src/core/vision/template.py] : TemplateMatcher.find_template
    - [src/main.py]                 : NikkeAutomation.navigate_to / _execute_action

    Python floats (durations, timestamps, confidences) are modelled as [Q];
    dicts whose iteration order matters are association lists in insertion
    order (assignment to an existing key keeps its position). *)

From Stdlib Require Import List String Bool Arith Lia QArith ZArith Sorted.
Import ListNotations.

(* ------------------------------------------------------------------ *)
(** ** manager.py : data model *)

Inductive GameState : Set :=
| UNKNOWN | HOME_SCREEN | BATTLE | SHOP | INVENTORY
| MAIL | LOADING | LOGIN | ERROR | POPUP.

Definition GameState_eq_dec (a b : GameState) : {a = b} + {a <> b}.
Proof. decide equality. Defined.

Definition GameState_eqb (a b : GameState) : bool :=
  if GameState_eq_dec a b then true else false.

Definition all_states : list GameState :=
  [UNKNOWN; HOME_SCREEN; BATTLE; SHOP; INVENTORY; MAIL; LOADING; LOGIN; ERROR; POPUP].

(** Python's [x in visited] on a set of states. *)
Definition mem (s : GameState) (l : list GameState) : bool :=
  existsb (GameState_eqb s) l.

Record StateTransition : Set := mkTransition {
  from_state : GameState;
  to_state : GameState;
  action_sequence : list string;
  expected_duration : Q
}.

(** The key of [self.transitions]: [(from_state, to_state)]. *)
Definition key (t : StateTransition) : GameState * GameState :=
  (from_state t, to_state t).

Definition key_eqb (k1 k2 : GameState * GameState) : bool :=
  GameState_eqb (fst k1) (fst k2) && GameState_eqb (snd k1) (snd k2).

Record StateManager : Set := mkManager {
  current_state : GameState;
  previous_state : option GameState;
  state_history : list (GameState * Q);
  transitions : list StateTransition;   (* dict items, insertion order *)
  stable_state_time : Q
}.

(** [self.transitions[(f, t)] = transition]: an existing key keeps its
    position and gets the new value, a new key goes to the end. *)
Definition dict_set (ts : list StateTransition) (t : StateTransition)
  : list StateTransition :=
  if existsb (fun u => key_eqb (key u) (key t)) ts
  then map (fun u => if key_eqb (key u) (key t) then t else u) ts
  else ts ++ [t].

Definition register_transition (m : StateManager) (f t : GameState)
    (acts : list string) (d : Q) : StateManager :=
  {| current_state := current_state m;
     previous_state := previous_state m;
     state_history := state_history m;
     transitions := dict_set (transitions m) (mkTransition f t acts d);
     stable_state_time := stable_state_time m |}.

(** [self.transitions.get((f, t))]. *)
Definition lookup_transition (ts : list StateTransition) (k : GameState * GameState)
  : option StateTransition :=
  find (fun u => key_eqb (key u) k) ts.

Definition register_default_transitions (m : StateManager) : StateManager :=
  let m := register_transition m HOME_SCREEN SHOP
             ["click_template:home/shop_icon"%string] 2 in
  let m := register_transition m SHOP HOME_SCREEN
             ["click_template:common/return_home"%string] (3#2) in
  let m := register_transition m POPUP UNKNOWN
             ["click_template:common/close_button"%string;
              "click_template:common/confirm_button"%string;
              "click_template:common/empty_area"%string] 1 in
  let m := register_transition m ERROR HOME_SCREEN
             ["click_template:common/confirm_button"%string; "wait:2.0"%string] 3 in
  register_transition m UNKNOWN HOME_SCREEN
             ["click_template:common/return_home"%string; "wait:1.0"%string;
              "click_template:common/close_button"%string; "wait:0.5"%string;
              "click_template:common/confirm_button"%string; "wait:0.5"%string] 3.

(** [StateManager.__init__]. *)
Definition init_manager : StateManager :=
  register_default_transitions
    {| current_state := UNKNOWN; previous_state := None; state_history := [];
       transitions := []; stable_state_time := 0 |}.

(** [StateManager.update_state]; [now] is the value of [time.time()]. *)
Definition update_state (m : StateManager) (new_state : GameState) (now : Q)
  : bool * StateManager :=
  if GameState_eqb new_state (current_state m) then (false, m)
  else (true,
        {| current_state := new_state;
           previous_state := Some (current_state m);
           state_history := state_history m ++ [(new_state, now)];
           transitions := transitions m;
           stable_state_time := now |}).

(* ------------------------------------------------------------------ *)
(** ** manager.py : [find_path] *)

Definition Queue := list (GameState * list StateTransition).

(** One pass of [for (from_s, to_s), transition in self.transitions.items()]
    for the popped [(state, path)]: [inl p] is [return new_path],
    [inr (visited, queue)] the sets after the pass. *)
Fixpoint scan (target state : GameState) (path : list StateTransition)
    (items : list StateTransition) (visited : list GameState) (queue : Queue)
  : list StateTransition + (list GameState * Queue) :=
  match items with
  | [] => inr (visited, queue)
  | t :: items' =>
      if GameState_eqb (from_state t) state && negb (mem (to_state t) visited) then
        let new_path := path ++ [t] in
        if GameState_eqb (to_state t) target then inl new_path
        else scan target state path items' (to_state t :: visited)
                  (queue ++ [(to_state t, new_path)])
      else scan target state path items' visited queue
  end.

(** The [while queue:] loop.  Every state enters [visited] at most once and
    every iteration pops one entry, so the loop runs at most
    [List.length all_states] times; [fuel] bounds it. *)
Fixpoint bfs (fuel : nat) (ts : list StateTransition) (target : GameState)
    (queue : Queue) (visited : list GameState) : option (list StateTransition) :=
  match fuel with
  | O => None
  | S fuel' =>
      match queue with
      | [] => None
      | (state, path) :: rest =>
          match scan target state path ts visited rest with
          | inl p => Some p
          | inr (visited', queue') => bfs fuel' ts target queue' visited'
          end
      end
  end.

Definition find_path (m : StateManager) (target : GameState)
  : option (list StateTransition) :=
  if GameState_eqb (current_state m) target then Some []
  else bfs (S (List.length all_states)) (transitions m) target
           [(current_state m, [])] [current_state m].

(** [can_transition_to]. *)
Definition can_transition_to (m : StateManager) (target : GameState) : bool :=
  match find_path m target with Some _ => true | None => false end.

(** [set.add]. *)
Definition set_add (s : GameState) (l : list GameState) : list GameState :=
  if mem s l then l else l ++ [s].

(** [get_reachable_states]. *)
Definition get_reachable_states (m : StateManager) : list GameState :=
  fold_left (fun acc t =>
               if GameState_eqb (from_state t) (current_state m)
               then set_add (to_state t) acc else acc)
            (transitions m) [current_state m].

(* ------------------------------------------------------------------ *)
(** ** Paths in the transition graph *)

(** [is_path ts u p v]: [p] is an ordered list of registered transitions
    leading from [u] to [v]; built the way [find_path] builds paths, by
    appending one transition at a time. *)
Inductive is_path (ts : list StateTransition) (u : GameState)
  : list StateTransition -> GameState -> Prop :=
| path_nil : is_path ts u [] u
| path_snoc p t :
    is_path ts u p (from_state t) -> In t ts ->
    is_path ts u (p ++ [t]) (to_state t).

Definition reachable (ts : list StateTransition) (u v : GameState) : Prop :=
  exists p, is_path ts u p v.

(* ------------------------------------------------------------------ *)
(** ** Basic facts on the decision procedures *)

Lemma GameState_eqb_spec (a b : GameState) : GameState_eqb a b = true <-> a = b.
Proof. unfold GameState_eqb; destruct (GameState_eq_dec a b); split; congruence. Qed.

Lemma GameState_eqb_refl (a : GameState) : GameState_eqb a a = true.
Proof. apply GameState_eqb_spec; reflexivity. Qed.

Lemma GameState_eqb_neq (a b : GameState) : a <> b -> GameState_eqb a b = false.
Proof.
  intro H; destruct (GameState_eqb a b) eqn:E; [|reflexivity].
  apply GameState_eqb_spec in E; contradiction.
Qed.

Lemma mem_spec (s : GameState) (l : list GameState) : mem s l = true <-> In s l.
Proof.
  unfold mem; rewrite existsb_exists; split.
  - intros [x [Hx Hs]]; apply GameState_eqb_spec in Hs; subst; assumption.
  - intro H; exists s; split; [assumption | apply GameState_eqb_refl].
Qed.

Lemma in_all_states (s : GameState) : In s all_states.
Proof. destruct s; simpl; tauto. Qed.

Lemma key_eqb_spec (k1 k2 : GameState * GameState) : key_eqb k1 k2 = true <-> k1 = k2.
Proof.
  destruct k1 as [a b], k2 as [c d]; unfold key_eqb; simpl.
  rewrite andb_true_iff, !GameState_eqb_spec; split.
  - intros [-> ->]; reflexivity.
  - intro H; inversion H; split; reflexivity.
Qed.

Lemma is_path_inv (ts : list StateTransition) (u : GameState) q v :
  is_path ts u q v ->
  (q = [] /\ v = u) \/
  exists q' t, q = q' ++ [t] /\ is_path ts u q' (from_state t) /\ In t ts /\ to_state t = v.
Proof.
  intro H; destruct H as [|p t Hp Ht].
  - left; split; reflexivity.
  - right; exists p, t; repeat split; assumption.
Qed.

(* ------------------------------------------------------------------ *)
(** ** Correctness of the breadth-first search in [find_path] *)

Local Open Scope nat_scope.

Definition unvisited (visited : list GameState) : nat :=
  List.length (filter (fun s => negb (mem s visited)) all_states).

(** Termination measure of the [while queue:] loop. *)
Definition bfs_measure (queue : Queue) (visited : list GameState) : nat :=
  List.length queue + unvisited visited.

Lemma mem_cons (x s : GameState) (v : list GameState) :
  mem x (s :: v) = GameState_eqb x s || mem x v.
Proof. reflexivity. Qed.

Lemma unvisited_add_le (s : GameState) (v : list GameState) (l : list GameState) :
  List.length (filter (fun x => negb (mem x (s :: v))) l)
  <= List.length (filter (fun x => negb (mem x v)) l).
Proof.
  induction l as [|x l IH]; cbn [filter]; [lia|].
  rewrite mem_cons.
  destruct (GameState_eqb x s), (mem x v); cbn [negb orb List.length]; lia.
Qed.

Lemma unvisited_add_lt (s : GameState) (v : list GameState) (l : list GameState) :
  ~ In s v -> In s l ->
  List.length (filter (fun x => negb (mem x (s :: v))) l)
  < List.length (filter (fun x => negb (mem x v)) l).
Proof.
  intros Hv; induction l as [|x l IH]; [intros []|].
  intros [-> | Hl]; cbn [filter]; rewrite mem_cons.
  - rewrite GameState_eqb_refl.
    assert (mem s v = false) as ->.
    { destruct (mem s v) eqn:E; [apply mem_spec in E; contradiction | reflexivity]. }
    cbn [negb orb List.length]; pose proof (unvisited_add_le s v l); lia.
  - specialize (IH Hl).
    destruct (GameState_eqb x s), (mem x v); cbn [negb orb List.length]; lia.
Qed.

Lemma unvisited_add (s : GameState) (v : list GameState) :
  ~ In s v -> unvisited (s :: v) < unvisited v.
Proof. intro H; apply unvisited_add_lt; [assumption | apply in_all_states]. Qed.

Lemma nodup_snoc {A : Type} (l : list A) (x : A) :
  NoDup l -> ~ In x l -> NoDup (l ++ [x]).
Proof.
  intros Hl Hx; apply NoDup_app; [assumption | repeat constructor; intros [] |].
  intros a Ha [-> | []]; contradiction.
Qed.

Section BFS.

Variable ts : list StateTransition.
Variable cur target : GameState.
Hypothesis cur_target : cur <> target.

Definition closed (visited : list GameState) (v : GameState) : Prop :=
  forall t, In t ts -> from_state t = v -> In (to_state t) visited.

Definition shortest (p : list StateTransition) (v : GameState) : Prop :=
  is_path ts cur p v /\ forall q, is_path ts cur q v -> List.length p <= List.length q.

Definition states (queue : Queue) : list GameState := map fst queue.

Definition levels (m : nat) (queue : Queue) : Prop :=
  exists A B, queue = A ++ B /\
    Forall (fun e => List.length (snd e) = m) A /\
    Forall (fun e => List.length (snd e) = S m) B.

(** Invariant of the [while queue:] loop; [m] is the hop count of the
    front of the queue. *)
Record bfs_inv (m : nat) (queue : Queue) (visited : list GameState) : Prop := {
  inv_short : forall s p, In (s, p) queue -> shortest p s;
  inv_levels : levels m queue;
  inv_cur : In cur visited;
  inv_target : ~ In target visited;
  inv_queue_visited : forall s, In s (states queue) -> In s visited;
  inv_nodup : NoDup (states queue);
  inv_closed : forall v, In v visited -> ~ In v (states queue) -> closed visited v;
  inv_below : forall v q, is_path ts cur q v -> List.length q < m ->
                In v visited /\ ~ In v (states queue)
}.

(** Invariant of the inner [for] loop while the popped [(state, path)] is
    expanded; [done] are the items already scanned. *)
Record scan_inv (m : nat) (state : GameState) (path : list StateTransition)
    (done : list StateTransition) (queue : Queue) (visited : list GameState)
  : Prop := {
  sc_path : shortest path state;
  sc_len : List.length path = m;
  sc_short : forall s p, In (s, p) queue -> shortest p s;
  sc_levels : levels m queue;
  sc_cur : In cur visited;
  sc_state : In state visited;
  sc_target : ~ In target visited;
  sc_queue_visited : forall s, In s (states queue) -> In s visited;
  sc_nodup : NoDup (states queue);
  sc_state_nq : ~ In state (states queue);
  sc_closed : forall v, In v visited -> ~ In v (states queue) -> v <> state ->
                closed visited v;
  sc_done : forall t, In t done -> from_state t = state -> In (to_state t) visited;
  sc_below : forall v q, is_path ts cur q v -> List.length q < m ->
               In v visited /\ ~ In v (states queue) /\ v <> state
}.

Lemma closed_mono (v1 v2 : list GameState) (x : GameState) :
  (forall s, In s v1 -> In s v2) -> closed v1 x -> closed v2 x.
Proof. intros Hsub Hc t Ht Hf; apply Hsub, Hc; assumption. Qed.

(** While the popped state is at depth [m], nothing outside [visited] is
    reachable in [m] hops or fewer. *)
Lemma scan_no_shortcut m state path done queue visited s q :
  scan_inv m state path done queue visited ->
  ~ In s visited -> is_path ts cur q s -> S m <= List.length q.
Proof.
  intros I Hs Hq.
  destruct (is_path_inv _ _ _ _ Hq) as [[-> ->] | [q' [t [-> [Hq' [Ht Hto]]]]]].
  - exfalso; apply Hs, (sc_cur _ _ _ _ _ _ I).
  - rewrite length_app; simpl.
    destruct (le_lt_dec m (List.length q')) as [Hle | Hlt]; [lia|].
    destruct (sc_below _ _ _ _ _ _ I _ _ Hq' Hlt) as [Hv [Hnq Hns]].
    exfalso; apply Hs; rewrite <- Hto.
    apply (sc_closed _ _ _ _ _ _ I (from_state t)); auto.
Qed.

Lemma scan_correct m state path items done queue visited :
  ts = done ++ items ->
  scan_inv m state path done queue visited ->
  match scan target state path items visited queue with
  | inl p => shortest p target
  | inr (visited', queue') =>
      scan_inv m state path ts queue' visited' /\
      bfs_measure queue' visited' <= bfs_measure queue visited
  end.
Proof.
  revert done queue visited.
  induction items as [|t items IH]; intros done queue visited Hts I; simpl.
  - rewrite app_nil_r in Hts; subst done; split; [assumption | lia].
  - assert (Ht : In t ts) by (rewrite Hts; apply in_or_app; right; left; reflexivity).
    destruct (GameState_eqb (from_state t) state && negb (mem (to_state t) visited))
      eqn:Hcond.
    + apply andb_true_iff in Hcond as [Hf Hm].
      apply GameState_eqb_spec in Hf.
      apply negb_true_iff in Hm.
      assert (Hnv : ~ In (to_state t) visited)
        by (intro Hin; apply mem_spec in Hin; congruence).
      assert (Hp : is_path ts cur (path ++ [t]) (to_state t)).
      { apply path_snoc; [rewrite Hf; apply (sc_path _ _ _ _ _ _ I) | assumption]. }
      assert (Hmin : forall q, is_path ts cur q (to_state t) ->
                       List.length (path ++ [t]) <= List.length q).
      { intros q Hq; rewrite length_app, (sc_len _ _ _ _ _ _ I); simpl.
        rewrite Nat.add_1_r; eapply scan_no_shortcut; eassumption. }
      destruct (GameState_eqb (to_state t) target) eqn:Htg.
      * apply GameState_eqb_spec in Htg; rewrite <- Htg; split; assumption.
      * assert (Htg' : to_state t <> target)
          by (intro E; apply GameState_eqb_spec in E; congruence).
        set (s := to_state t) in *.
        assert (Hsq : ~ In s (states queue))
          by (intro E; apply Hnv, (sc_queue_visited _ _ _ _ _ _ I), E).
        assert (Hst : s <> state)
          by (intro E; apply Hnv; rewrite E; apply (sc_state _ _ _ _ _ _ I)).
        assert (Hstates : states (queue ++ [(s, path ++ [t])]) = states queue ++ [s])
          by (unfold states; rewrite map_app; reflexivity).
        specialize (IH (done ++ [t]) (queue ++ [(s, path ++ [t])]) (s :: visited)).
        destruct (scan target state path items (s :: visited)
                    (queue ++ [(s, path ++ [t])])) as [p | [v' q']] eqn:E.
        -- apply IH; [rewrite <- app_assoc; assumption|].
           destruct I; constructor; try assumption.
           ++ intros s' p' Hin; apply in_app_or in Hin as [Hin | [Heq | []]].
              ** apply sc_short0; assumption.
              ** inversion Heq; subst; split; assumption.
           ++ destruct sc_levels0 as [A [B [-> [HA HB]]]].
              exists A, (B ++ [(s, path ++ [t])]); split; [rewrite app_assoc; reflexivity|].
              split; [assumption|]; apply Forall_app; split; [assumption|].
              constructor; [|constructor]; simpl; rewrite length_app, sc_len0; simpl; lia.
           ++ right; assumption.
           ++ right; assumption.
           ++ intros [E' | E']; [congruence | contradiction].
           ++ rewrite Hstates; intros x Hx; apply in_app_or in Hx as [Hx | [<- | []]];
                [right; auto | left; reflexivity].
           ++ rewrite Hstates; apply nodup_snoc; assumption.
           ++ rewrite Hstates; intro Hx; apply in_app_or in Hx as [Hx | [Hx | []]];
                [contradiction | congruence].
           ++ intros v Hv Hvq Hvs; rewrite Hstates in Hvq.
              destruct Hv as [<- | Hv].
              ** exfalso; apply Hvq, in_or_app; right; left; reflexivity.
              ** apply (closed_mono visited); [intros; right; assumption|].
                 apply sc_closed0; auto; intro; apply Hvq, in_or_app; left; assumption.
           ++ intros t' Ht' Hf'; apply in_app_or in Ht' as [Ht' | [<- | []]].
              ** right; auto.
              ** left; reflexivity.
           ++ intros v q Hq Hlt; destruct (sc_below0 v q Hq Hlt) as [Hv [Hvq Hvs]].
              split; [right; assumption|]; split; [|assumption].
              rewrite Hstates; intro Hx; apply in_app_or in Hx as [Hx | [<- | []]];
                [contradiction | contradiction].
        -- assert (I' : scan_inv m state path (done ++ [t]) (queue ++ [(s, path ++ [t])])
                          (s :: visited)).
           { destruct I; constructor; try assumption.
             ++ intros s' p' Hin; apply in_app_or in Hin as [Hin | [Heq | []]].
                ** apply sc_short0; assumption.
                ** inversion Heq; subst; split; assumption.
             ++ destruct sc_levels0 as [A [B [-> [HA HB]]]].
                exists A, (B ++ [(s, path ++ [t])]); split; [rewrite app_assoc; reflexivity|].
                split; [assumption|]; apply Forall_app; split; [assumption|].
                constructor; [|constructor]; simpl; rewrite length_app, sc_len0; simpl; lia.
             ++ right; assumption.
             ++ right; assumption.
             ++ intros [E' | E']; [congruence | contradiction].
             ++ rewrite Hstates; intros x Hx; apply in_app_or in Hx as [Hx | [<- | []]];
                  [right; auto | left; reflexivity].
             ++ rewrite Hstates; apply nodup_snoc; assumption.
             ++ rewrite Hstates; intro Hx; apply in_app_or in Hx as [Hx | [Hx | []]];
                  [contradiction | congruence].
             ++ intros v Hv Hvq Hvs; rewrite Hstates in Hvq.
                destruct Hv as [<- | Hv].
                ** exfalso; apply Hvq, in_or_app; right; left; reflexivity.
                ** apply (closed_mono visited); [intros; right; assumption|].
                   apply sc_closed0; auto; intro; apply Hvq, in_or_app; left; assumption.
             ++ intros t' Ht' Hf'; apply in_app_or in Ht' as [Ht' | [<- | []]].
                ** right; auto.
                ** left; reflexivity.
             ++ intros v q Hq Hlt; destruct (sc_below0 v q Hq Hlt) as [Hv [Hvq Hvs]].
                split; [right; assumption|]; split; [|assumption].
                rewrite Hstates; intro Hx; apply in_app_or in Hx as [Hx | [<- | []]];
                  [contradiction | contradiction]. }
           specialize (IH ltac:(rewrite <- app_assoc; assumption) I').
           destruct IH as [I'' Hmeas]; split; [assumption|].
           pose proof (unvisited_add s visited Hnv).
           unfold bfs_measure in *; rewrite length_app in Hmeas; simpl in Hmeas; lia.
    + specialize (IH (done ++ [t]) queue visited ltac:(rewrite <- app_assoc; assumption)).
      apply IH; destruct I; constructor; try assumption.
      intros t' Ht' Hf'; apply in_app_or in Ht' as [Ht' | [<- | []]]; [auto|].
      apply andb_false_iff in Hcond as [Hc | Hc].
      * rewrite Hf', GameState_eqb_refl in Hc; discriminate.
      * apply negb_false_iff, mem_spec in Hc; assumption.
Qed.

Lemma pop_inv m state path rest visited :
  bfs_inv m ((state, path) :: rest) visited -> List.length path = m ->
  scan_inv m state path [] rest visited.
Proof.
  intros I Hlen; destruct I as [Is Il Ic It Iq Ind Icl Ib].
  assert (Hnd := Ind); simpl in Hnd; apply NoDup_cons_iff in Hnd as [Hnq Hnd].
  constructor; try assumption.
  - apply Is; left; reflexivity.
  - intros s p H; apply Is; right; assumption.
  - destruct Il as [[|e A] [B [Hq [HA HB]]]].
    + exfalso; simpl in Hq; subst B; inversion HB; simpl in *; lia.
    + inversion Hq; subst; exists A, B; inversion HA; split; [reflexivity | split; assumption].
  - apply Iq; left; reflexivity.
  - intros s Hs; apply Iq; right; assumption.
  - intros v Hv Hvq Hvs; apply Icl; [assumption|].
    intros [E | E]; [simpl in E; congruence | contradiction].
  - intros t [].
  - intros v q Hq Hlt; destruct (Ib v q Hq Hlt) as [Hv Hvq].
    split; [assumption|]; split; intro E; apply Hvq; [right | left]; auto.
Qed.

Lemma scan_done_inv m state path queue visited :
  scan_inv m state path ts queue visited -> bfs_inv m queue visited.
Proof.
  intro I; destruct I; constructor; try assumption.
  - intros v Hv Hvq; destruct (GameState_eq_dec v state) as [-> | Hne].
    + intros t Ht Hf; apply sc_done0; assumption.
    + apply sc_closed0; assumption.
  - intros v q Hq Hlt; destruct (sc_below0 v q Hq Hlt) as [? [? ?]]; split; assumption.
Qed.

(** When the front level is exhausted, the invariant moves one level down. *)
Lemma inv_shift m queue visited :
  bfs_inv m queue visited ->
  Forall (fun e => List.length (snd e) = S m) queue ->
  bfs_inv (S m) queue visited.
Proof.
  intros I Hall; destruct I as [Is Il Ic It Iq Ind Icl Ib]; constructor; try assumption.
  - exists queue, []; rewrite app_nil_r; repeat split; [assumption | constructor].
  - intros v q Hq Hlt.
    destruct (le_lt_dec m (List.length q)) as [Hge | Hlt']; [|apply Ib with q; assumption].
    assert (Hvis : In v visited).
    { destruct (is_path_inv _ _ _ _ Hq) as [[-> ->] | [q' [t [-> [Hq' [Ht Hto]]]]]].
      - assumption.
      - rewrite length_app in *; simpl in *.
        destruct (Ib _ _ Hq' ltac:(lia)) as [Hf Hfq].
        rewrite <- Hto; apply (Icl _ Hf Hfq); auto. }
    split; [assumption|].
    intro Hvq; unfold states in Hvq; apply in_map_iff in Hvq as [[v' p] [Hv' Hin]].
    simpl in Hv'; subst v'.
    destruct (Is _ _ Hin) as [_ Hmin]; specialize (Hmin q Hq).
    rewrite Forall_forall in Hall; specialize (Hall _ Hin); simpl in Hall; lia.
Qed.

Lemma inv_front m state path rest visited :
  bfs_inv m ((state, path) :: rest) visited ->
  bfs_inv (List.length path) ((state, path) :: rest) visited.
Proof.
  intro I; pose proof (inv_levels _ _ _ I) as [[|e A] [B [Hq [HA HB]]]].
  - simpl in Hq; subst B.
    inversion HB as [|x l Hx Hl]; subst; simpl in Hx; rewrite Hx.
    apply inv_shift; assumption.
  - inversion Hq; subst; inversion HA; simpl in *; subst; assumption.
Qed.

Lemma visited_path_closed visited m :
  bfs_inv m [] visited -> forall q v, is_path ts cur q v -> In v visited.
Proof.
  intros I q v Hq; induction Hq as [|p t Hp IH Ht].
  - apply (inv_cur _ _ _ I).
  - apply (inv_closed _ _ _ I (from_state t)); auto.
Qed.

Lemma bfs_correct fuel : forall m queue visited,
  bfs_inv m queue visited -> bfs_measure queue visited < fuel ->
  match bfs fuel ts target queue visited with
  | Some p => shortest p target
  | None => forall q, ~ is_path ts cur q target
  end.
Proof.
  induction fuel as [|fuel IH]; intros m queue visited I Hf; [lia|].
  destruct queue as [|[state path] rest]; simpl.
  - intros q Hq; apply (inv_target _ _ _ I), (visited_path_closed _ _ I q _ Hq).
  - apply inv_front in I.
    pose proof (scan_correct _ _ _ ts [] rest visited eq_refl
                  (pop_inv _ _ _ _ _ I eq_refl)) as Hs.
    destruct (scan target state path ts visited rest) as [p | [v' q']].
    + assumption.
    + destruct Hs as [I' Hm]; apply (IH (List.length path)).
      * apply (scan_done_inv _ _ _ _ _ I').
      * unfold bfs_measure in *; simpl in Hf; lia.
Qed.

Lemma bfs_inv_init : bfs_inv 0 [(cur, [])] [cur].
Proof.
  constructor.
  - intros s p [E | []]; inversion E; subst; split; [constructor | intros; simpl; lia].
  - exists [(cur, [])], []; repeat constructor.
  - left; reflexivity.
  - intros [E | []]; congruence.
  - intros s [E | []]; left; assumption.
  - repeat constructor; intros [].
  - intros v [<- | []] Hv; exfalso; apply Hv; left; reflexivity.
  - intros v q _ Hlt; lia.
Qed.

Lemma bfs_find_path_correct :
  match bfs (S (List.length all_states)) ts target [(cur, [])] [cur] with
  | Some p => shortest p target
  | None => forall q, ~ is_path ts cur q target
  end.
Proof.
  apply (bfs_correct _ 0 _ _ bfs_inv_init).
  unfold bfs_measure, unvisited; destruct cur; simpl; lia.
Qed.

End BFS.

Lemma find_path_cases (m : StateManager) (target : GameState) :
  (current_state m = target /\ find_path m target = Some []) \/
  (current_state m <> target /\
   match find_path m target with
   | Some p => shortest (transitions m) (current_state m) p target
   | None => forall q, ~ is_path (transitions m) (current_state m) q target
   end).
Proof.
  unfold find_path; destruct (GameState_eqb (current_state m) target) eqn:E.
  - left; apply GameState_eqb_spec in E; split; [assumption | reflexivity].
  - right; assert (Hne : current_state m <> target)
      by (intro H; apply GameState_eqb_spec in H; congruence).
    split; [assumption | apply bfs_find_path_correct; assumption].
Qed.

Lemma find_path_reachable (m : StateManager) (target : GameState) :
  reachable (transitions m) (current_state m) target ->
  exists p, find_path m target = Some p.
Proof.
  intros [q Hq]; destruct (find_path_cases m target) as [[_ ->] | [_ Hfp]];
    [exists []; reflexivity|].
  destruct (find_path m target) as [p|]; [exists p; reflexivity | destruct (Hfp q Hq)].
Qed.

Lemma find_path_line_graph (A B C : GameState) acts1 d1 acts2 d2 prev hist t0 :
  A <> B -> B <> C -> A <> C ->
  let tAB := mkTransition A B acts1 d1 in
  let tBC := mkTransition B C acts2 d2 in
  find_path (mkManager A prev hist [tAB; tBC] t0) C = Some [tAB; tBC] /\
  find_path (mkManager A prev hist [tBC; tAB] t0) C = Some [tAB; tBC] /\
  find_path (mkManager C prev hist [tAB; tBC] t0) A = None /\
  find_path (mkManager C prev hist [tBC; tAB] t0) A = None.
Proof.
  intros HAB HBC HAC; destruct A, B, C; try congruence; repeat split.
Qed.

(** Claim C1: [find_path] is a breadth-first search over the directed edge
    set.  It returns the empty list exactly when the current state is the
    target; when it returns a list, that list is a path of registered
    transitions from the current state to the target with the minimum number
    of hops; it returns [Some _] whenever the target is reachable and [None]
    when it is not.  On the graph with only the edges A->B and B->C (in
    either insertion order) the path from A to C is exactly [A->B; B->C] and
    there is no path from C to A. *)
Theorem find_path_bfs_spec (m : StateManager) (target : GameState) :
  (find_path m target = Some [] <-> current_state m = target) /\
  (forall p, find_path m target = Some p ->
     is_path (transitions m) (current_state m) p target /\
     forall q, is_path (transitions m) (current_state m) q target ->
       List.length p <= List.length q) /\
  (reachable (transitions m) (current_state m) target ->
     exists p, find_path m target = Some p) /\
  (~ reachable (transitions m) (current_state m) target ->
     find_path m target = None) /\
  (forall (A B C : GameState) acts1 d1 acts2 d2 prev hist t0,
     A <> B -> B <> C -> A <> C ->
     let tAB := mkTransition A B acts1 d1 in
     let tBC := mkTransition B C acts2 d2 in
     find_path (mkManager A prev hist [tAB; tBC] t0) C = Some [tAB; tBC] /\
     find_path (mkManager A prev hist [tBC; tAB] t0) C = Some [tAB; tBC] /\
     find_path (mkManager C prev hist [tAB; tBC] t0) A = None /\
     find_path (mkManager C prev hist [tBC; tAB] t0) A = None).
Proof.
  split; [|split; [|split; [|split]]]; [| | | | apply find_path_line_graph];
    destruct (find_path_cases m target) as [[Heq Hfp] | [Hne Hfp]].
  - rewrite Hfp; split; [intros _; assumption | reflexivity].
  - destruct (find_path m target) as [p|]; split; intro E; try discriminate;
      try contradiction.
    inversion E; subst; destruct Hfp as [Hpath _].
    inversion Hpath as [E1 E2|p' t Hp' Ht E1]; [congruence|].
    destruct p'; discriminate.
  - rewrite Hfp; intros p E; inversion E; subst; split;
      [constructor | intros; simpl; lia].
  - destruct (find_path m target) as [p'|]; intros p E; inversion E; subst; assumption.
  - rewrite Hfp; intros _; exists []; reflexivity.
  - destruct (find_path m target) as [p|]; intros [q Hq];
      [exists p; reflexivity | destruct (Hfp q Hq)].
  - intros Hnr; exfalso; apply Hnr; exists []; rewrite <- Heq; constructor.
  - destruct (find_path m target) as [p|]; intros Hnr; [|reflexivity].
    exfalso; apply Hnr; exists p; apply Hfp.
Qed.

Lemma find_path_bfs_spec_witness :
  find_path init_manager SHOP = Some [mkTransition UNKNOWN HOME_SCREEN
      ["click_template:common/return_home"%string; "wait:1.0"%string;
       "click_template:common/close_button"%string; "wait:0.5"%string;
       "click_template:common/confirm_button"%string; "wait:0.5"%string] 3;
    mkTransition HOME_SCREEN SHOP ["click_template:home/shop_icon"%string] 2] /\
  find_path (mkManager HOME_SCREEN None [] [] 0) INVENTORY = None /\
  (find_path init_manager UNKNOWN = Some [] <-> current_state init_manager = UNKNOWN).
Proof.
  pose proof (find_path_bfs_spec init_manager UNKNOWN) as [H _].
  pose proof (find_path_bfs_spec (mkManager HOME_SCREEN None [] [] 0) INVENTORY)
    as [_ [_ [_ [H2 _]]]].
  split; [reflexivity|]; split; [|exact H].
  apply H2; intros [q Hq]; inversion Hq; simpl in *; contradiction.
Defined.

(* ------------------------------------------------------------------ *)
(** ** [register_transition]: the dict of transitions *)

(** Managers obtainable from [StateManager()] by the mutating methods.
    [find_path], [can_transition_to] and [get_reachable_states] only read
    the manager (they log, nothing else), so they add no case here. *)
Inductive mgr_reachable : StateManager -> Prop :=
| mr_init : mgr_reachable init_manager
| mr_update m s now : mgr_reachable m -> mgr_reachable (snd (update_state m s now))
| mr_register m f t acts d :
    mgr_reachable m -> mgr_reachable (register_transition m f t acts d).

Lemma existsb_key_spec (ts : list StateTransition) (k : GameState * GameState) :
  existsb (fun u => key_eqb (key u) k) ts = true <-> In k (map key ts).
Proof.
  rewrite existsb_exists, in_map_iff; split.
  - intros [u [Hu Hk]]; apply key_eqb_spec in Hk; exists u; split; assumption.
  - intros [u [Hk Hu]]; exists u; split; [assumption | apply key_eqb_spec; assumption].
Qed.

Lemma dict_set_keys (ts : list StateTransition) (t : StateTransition) :
  map key (dict_set ts t) =
  if existsb (fun u => key_eqb (key u) (key t)) ts then map key ts
  else map key ts ++ [key t].
Proof.
  unfold dict_set; destruct (existsb _ ts).
  - rewrite map_map; apply map_ext; intro u.
    destruct (key_eqb (key u) (key t)) eqn:E; [symmetry; apply key_eqb_spec|]; auto.
  - rewrite map_app; reflexivity.
Qed.

Lemma dict_set_nodup (ts : list StateTransition) (t : StateTransition) :
  NoDup (map key ts) -> NoDup (map key (dict_set ts t)).
Proof.
  intro H; rewrite dict_set_keys; destruct (existsb _ ts) eqn:E; [assumption|].
  apply nodup_snoc; [assumption|].
  intro Hin; apply existsb_key_spec in Hin; congruence.
Qed.

Lemma dict_set_lookup (ts : list StateTransition) (t : StateTransition) :
  lookup_transition (dict_set ts t) (key t) = Some t.
Proof.
  unfold lookup_transition, dict_set; destruct (existsb _ ts) eqn:E.
  - induction ts as [|u ts IH]; [discriminate|]; simpl in *.
    destruct (key_eqb (key u) (key t)) eqn:Eu; simpl.
    + rewrite (proj2 (key_eqb_spec _ _) eq_refl); reflexivity.
    + apply IH in E; rewrite Eu; assumption.
  - induction ts as [|u ts IH]; simpl in *.
    + rewrite (proj2 (key_eqb_spec _ _) eq_refl); reflexivity.
    + apply orb_false_iff in E as [Eu E]; rewrite Eu; apply IH; assumption.
Qed.

Lemma dict_set_only (ts : list StateTransition) (t : StateTransition) :
  forall u, In u (dict_set ts t) -> key u = key t -> u = t.
Proof.
  unfold dict_set; destruct (existsb _ ts) eqn:E; intros u Hu Hk.
  - apply in_map_iff in Hu as [u' [Hu' _]].
    destruct (key_eqb (key u') (key t)) eqn:Ek; [congruence|].
    subst u'; apply key_eqb_spec in Hk; congruence.
  - apply in_app_or in Hu as [Hu | [<- | []]]; [|reflexivity].
    assert (existsb (fun u => key_eqb (key u) (key t)) ts = true)
      by (apply existsb_exists; exists u; split; [|apply key_eqb_spec]; assumption).
    congruence.
Qed.

Lemma mgr_reachable_nodup (m : StateManager) :
  mgr_reachable m -> NoDup (map key (transitions m)).
Proof.
  induction 1 as [| m s now _ IH | m f t acts d _ IH].
  - vm_compute; repeat constructor; simpl; intuition discriminate.
  - unfold update_state; destruct (GameState_eqb s (current_state m)); exact IH.
  - apply dict_set_nodup; exact IH.
Qed.

(* ------------------------------------------------------------------ *)
(** ** [update_state] and the session invariant *)

Definition history_no_repeat (h : list (GameState * Q)) : Prop :=
  forall pre a b post, h = pre ++ a :: b :: post -> fst a <> fst b.

Definition history_ends_in (h : list (GameState * Q)) (s : GameState) : Prop :=
  h = [] \/ exists h' x, h = h' ++ [x] /\ fst x = s.

Lemma history_no_repeat_snoc (h : list (GameState * Q)) (y : GameState * Q) :
  history_no_repeat h ->
  (h = [] \/ exists h' z, h = h' ++ [z] /\ fst z <> fst y) ->
  history_no_repeat (h ++ [y]).
Proof.
  intros Hh Hlast pre a b post E.
  destruct post as [|p post].
  - assert (E' : (pre ++ [a]) ++ [b] = h ++ [y])
      by (rewrite <- app_assoc; symmetry; exact E).
    apply app_inj_tail in E' as [E1 <-].
    destruct Hlast as [-> | [h' [z [E2 Hz]]]].
    + destruct pre; discriminate.
    + rewrite E2 in E1; apply app_inj_tail in E1 as [_ <-]; assumption.
  - destruct (exists_last (l := p :: post) ltac:(discriminate)) as [post' [z Ez]].
    assert (E' : (pre ++ a :: b :: post') ++ [z] = h ++ [y])
      by (rewrite <- app_assoc; rewrite Ez in E; symmetry; exact E).
    apply app_inj_tail in E' as [E' _].
    apply (Hh pre a b post'); symmetry; assumption.
Qed.

Lemma session_invariant (m : StateManager) :
  mgr_reachable m ->
  (previous_state m = None \/
   exists p, previous_state m = Some p /\ p <> current_state m) /\
  history_no_repeat (state_history m) /\
  history_ends_in (state_history m) (current_state m).
Proof.
  induction 1 as [| m s now _ IH | m f t acts d _ IH].
  - split; [left; reflexivity|]; split; [|left; reflexivity].
    intros pre a b post E; destruct pre; discriminate.
  - destruct IH as [Hp [Hh He]]; unfold update_state.
    destruct (GameState_eqb s (current_state m)) eqn:E; [split; [|split]; assumption|].
    assert (Hne : s <> current_state m)
      by (intro H; apply GameState_eqb_spec in H; congruence).
    simpl; split; [right; exists (current_state m); split; [reflexivity | auto]|].
    split.
    + apply history_no_repeat_snoc; [assumption|].
      destruct He as [-> | [h' [x [-> Hx]]]]; [left; reflexivity|].
      right; exists h', x; split; [reflexivity|]; simpl; rewrite Hx; auto.
    + right; exists (state_history m), (s, now); split; reflexivity.
  - exact IH.
Qed.

(* ------------------------------------------------------------------ *)
(** ** [get_reachable_states] *)

Lemma set_add_in (x s : GameState) (l : list GameState) :
  In s (set_add x l) <-> s = x \/ In s l.
Proof.
  unfold set_add; destruct (mem x l) eqn:E.
  - apply mem_spec in E; split; [auto|]; intros [-> | H]; assumption.
  - rewrite in_app_iff; simpl; split; intuition.
Qed.

Lemma set_add_nodup (x : GameState) (l : list GameState) :
  NoDup l -> NoDup (set_add x l).
Proof.
  unfold set_add; destruct (mem x l) eqn:E; intro H; [assumption|].
  apply nodup_snoc; [assumption|]; intro Hx; apply mem_spec in Hx; congruence.
Qed.

Lemma reachable_fold (cur : GameState) (ts : list StateTransition) :
  forall acc s,
  In s (fold_left (fun acc t =>
          if GameState_eqb (from_state t) cur then set_add (to_state t) acc else acc)
          ts acc) <->
  In s acc \/ exists t, In t ts /\ from_state t = cur /\ to_state t = s.
Proof.
  induction ts as [|t ts IH]; intros acc s; simpl.
  - split; [auto|]; intros [H | [t [[] _]]]; assumption.
  - rewrite IH; destruct (GameState_eqb (from_state t) cur) eqn:E.
    + apply GameState_eqb_spec in E; rewrite set_add_in; split.
      * intros [[-> | H] | [u [Hu Hc]]]; [right; exists t | left | right; exists u]; auto.
      * intros [H | [u [[<- | Hu] [Hf Hs]]]]; [left; right | left; left | right; exists u];
          auto.
    + split.
      * intros [H | [u [Hu Hc]]]; [left | right; exists u]; auto.
      * intros [H | [u [[<- | Hu] [Hf Hs]]]]; [left | | right; exists u]; auto.
        apply GameState_eqb_spec in Hf; congruence.
Qed.

Lemma reachable_fold_nodup (cur : GameState) (ts : list StateTransition) :
  forall acc, NoDup acc ->
  NoDup (fold_left (fun acc t =>
           if GameState_eqb (from_state t) cur then set_add (to_state t) acc else acc)
           ts acc).
Proof.
  induction ts as [|t ts IH]; intros acc H; simpl; [assumption|].
  apply IH; destruct (GameState_eqb _ _); [apply set_add_nodup|]; assumption.
Qed.

(* ------------------------------------------------------------------ *)
(** ** Claims on the state manager *)

(** Claim C7: [update_state new_state] with [new_state] equal to the current
    state returns [false] and leaves the manager (current, previous, history,
    dwell-start time) unchanged; with a different [new_state] it returns
    [true], records the old current state as previous, appends
    [(new_state, now)] to the history and resets the dwell-start time to
    [now]. *)
Theorem update_state_effect (m : StateManager) (new_state : GameState) (now : Q) :
  (new_state = current_state m ->
     update_state m new_state now = (false, m)) /\
  (new_state <> current_state m ->
     let '(changed, m') := update_state m new_state now in
     changed = true /\
     current_state m' = new_state /\
     previous_state m' = Some (current_state m) /\
     state_history m' = state_history m ++ [(new_state, now)] /\
     stable_state_time m' = now /\
     transitions m' = transitions m).
Proof.
  unfold update_state; split; intro H.
  - rewrite H, GameState_eqb_refl; reflexivity.
  - rewrite (GameState_eqb_neq _ _ H); repeat split.
Qed.

Lemma update_state_effect_witness :
  update_state init_manager UNKNOWN 5 = (false, init_manager) /\
  snd (update_state init_manager HOME_SCREEN 5) =
    mkManager HOME_SCREEN (Some UNKNOWN) [(HOME_SCREEN, 5%Q)]
              (transitions init_manager) 5%Q.
Proof.
  split.
  - apply (proj1 (update_state_effect init_manager UNKNOWN 5)); reflexivity.
  - pose proof (proj2 (update_state_effect init_manager HOME_SCREEN 5)
                  ltac:(discriminate)) as H.
    destruct (update_state init_manager HOME_SCREEN 5) as [c m'].
    destruct H as [_ [H1 [H2 [H3 [H4 H5]]]]].
    destruct m'; simpl in *; subst; reflexivity.
Defined.

(** Claim C8: [get_reachable_states] is the current state together with the
    targets of the transitions registered directly from it (a set, without
    duplicates); a state reachable from the current state only through an
    intermediate hop is reported by [can_transition_to] but is not in
    [get_reachable_states]. *)
Theorem reachable_states_one_hop (m : StateManager) :
  (forall s, In s (get_reachable_states m) <->
     s = current_state m \/
     exists t, In t (transitions m) /\ from_state t = current_state m /\ to_state t = s) /\
  NoDup (get_reachable_states m) /\
  (forall C, C <> current_state m ->
     (forall t, In t (transitions m) -> from_state t = current_state m -> to_state t <> C) ->
     reachable (transitions m) (current_state m) C ->
     can_transition_to m C = true /\ ~ In C (get_reachable_states m)).
Proof.
  assert (Hin : forall s, In s (get_reachable_states m) <->
     s = current_state m \/
     exists t, In t (transitions m) /\ from_state t = current_state m /\ to_state t = s).
  { intro s; unfold get_reachable_states; rewrite reachable_fold; simpl.
    split.
    - intros [[H | []] | H]; [left; symmetry; assumption | right; assumption].
    - intros [H | H]; [left; left; symmetry; assumption | right; assumption]. }
  split; [exact Hin|]; split.
  - apply reachable_fold_nodup; repeat constructor; intros [].
  - intros C Hne Hdirect Hreach; split.
    + unfold can_transition_to.
      destruct (find_path_reachable m C Hreach) as [p ->]; reflexivity.
    + rewrite Hin; intros [H | [t [Ht [Hf Hs]]]]; [congruence|].
      apply (Hdirect t Ht Hf Hs).
Qed.

Lemma reachable_states_one_hop_witness :
  get_reachable_states
    (mkManager HOME_SCREEN None [] [mkTransition HOME_SCREEN SHOP [] 2] 0%Q)
    = [HOME_SCREEN; SHOP] /\
  can_transition_to
    (mkManager HOME_SCREEN None []
       [mkTransition HOME_SCREEN SHOP [] 2; mkTransition SHOP INVENTORY [] 2] 0%Q)
    INVENTORY = true /\
  ~ In INVENTORY (get_reachable_states
    (mkManager HOME_SCREEN None []
       [mkTransition HOME_SCREEN SHOP [] 2; mkTransition SHOP INVENTORY [] 2] 0%Q)).
Proof.
  split; [reflexivity|].
  apply (proj2 (proj2 (reachable_states_one_hop
    (mkManager HOME_SCREEN None []
       [mkTransition HOME_SCREEN SHOP [] 2; mkTransition SHOP INVENTORY [] 2] 0%Q)))
    INVENTORY).
  - discriminate.
  - simpl; intros t [<- | [<- | []]]; simpl; discriminate.
  - exists ([mkTransition HOME_SCREEN SHOP [] 2] ++ [mkTransition SHOP INVENTORY [] 2]).
    apply (path_snoc _ _ [mkTransition HOME_SCREEN SHOP [] 2]).
    + apply (path_snoc _ _ [] (mkTransition HOME_SCREEN SHOP [] 2)); [constructor|].
      left; reflexivity.
    + right; left; reflexivity.
Defined.

(** Claim C9: registering a transition for an ordered pair that already has
    one replaces it: in every manager obtained from [StateManager()], after two
    successive registrations for [(f, t)] the dict holds exactly one entry for
    that pair (keys stay unique), and looking the pair up yields the most
    recently registered action list and duration. *)
Theorem register_transition_last_wins (m : StateManager) f t acts1 d1 acts2 d2 :
  mgr_reachable m ->
  let m2 := register_transition (register_transition m f t acts1 d1) f t acts2 d2 in
  lookup_transition (transitions m2) (f, t) = Some (mkTransition f t acts2 d2) /\
  NoDup (map key (transitions m2)) /\
  (forall u, In u (transitions m2) -> key u = (f, t) -> u = mkTransition f t acts2 d2).
Proof.
  intros Hm m2; split; [|split].
  - apply (dict_set_lookup _ (mkTransition f t acts2 d2)).
  - apply mgr_reachable_nodup; do 2 apply mr_register; assumption.
  - intros u Hu Hk; apply (dict_set_only _ _ u Hu Hk).
Qed.

Lemma register_transition_last_wins_witness :
  lookup_transition
    (transitions (register_transition (register_transition init_manager
       HOME_SCREEN SHOP ["click_template:home/shop_icon"%string] 2)
       HOME_SCREEN SHOP ["click_template:home/new_shop"%string] 4))
    (HOME_SCREEN, SHOP)
  = Some (mkTransition HOME_SCREEN SHOP ["click_template:home/new_shop"%string] 4).
Proof.
  apply (register_transition_last_wins init_manager HOME_SCREEN SHOP
           ["click_template:home/shop_icon"%string] 2
           ["click_template:home/new_shop"%string] 4 mr_init).
Defined.

(** Claim C10: in every manager obtained from [StateManager()] by
    [update_state] and [register_transition] calls ([find_path] leaves the
    manager untouched), the previous state is unset or differs from the
    current state, and the state history never records the same state in two
    consecutive entries. *)
Theorem manager_session_invariant (m : StateManager) :
  mgr_reachable m ->
  (previous_state m = None \/
   exists p, previous_state m = Some p /\ p <> current_state m) /\
  history_no_repeat (state_history m).
Proof.
  intro H; destruct (session_invariant m H) as [Hp [Hh _]]; split; assumption.
Qed.

Lemma manager_session_invariant_witness :
  let m := snd (update_state (snd (update_state init_manager HOME_SCREEN 1)) SHOP 2) in
  (previous_state m = None \/
   exists p, previous_state m = Some p /\ p <> current_state m) /\
  history_no_repeat (state_history m).
Proof.
  apply manager_session_invariant; do 2 apply mr_update; apply mr_init.
Defined.

(* ------------------------------------------------------------------ *)
(** ** template.py : [TemplateMatcher.find_template] *)

Local Open Scope Q_scope.

(** Python's [<] on floats. *)
Definition Qltb (x y : Q) : bool := negb (Qle_bool y x).

Lemma Qltb_iff (x y : Q) : Qltb x y = true <-> x < y.
Proof.
  unfold Qltb; rewrite negb_true_iff; split; intro H.
  - apply Qnot_le_lt; intro H'; apply Qle_bool_iff in H'; congruence.
  - destruct (Qle_bool y x) eqn:E; [|reflexivity].
    apply Qle_bool_iff in E; exfalso; apply (Qlt_not_le _ _ H E).
Qed.

Lemma Qltb_false (x y : Q) : Qltb x y = false <-> y <= x.
Proof.
  unfold Qltb; rewrite negb_false_iff; apply Qle_bool_iff.
Qed.

Inductive MatchMethod : Set := EXACT | SQDIFF | CCORR.

Definition MatchMethod_eqb (a b : MatchMethod) : bool :=
  match a, b with
  | EXACT, EXACT | SQDIFF, SQDIFF | CCORR, CCORR => true
  | _, _ => false
  end.

(** A decoded BGR image; [img_h] and [img_w] are [shape[0]] and [shape[1]]. *)
Record Image : Set := mkImage {
  img_h : nat;
  img_w : nat;
  pixels : list (list (Z * Z * Z))
}.

Record TemplateMatch : Set := mkMatch {
  top_left : Z * Z;
  bottom_right : Z * Z;
  confidence : Q;
  template_name : string;
  match_method : MatchMethod
}.

(** The score surface returned by [cv2.matchTemplate]: [result[y][x]]. *)
Definition Surface := list (list Q).

Fixpoint cells_row (y x : Z) (row : list Q) : list ((Z * Z) * Q) :=
  match row with
  | [] => []
  | v :: vs => ((x, y), v) :: cells_row y (x + 1)%Z vs
  end.

Fixpoint cells_from (y : Z) (rows : Surface) : list ((Z * Z) * Q) :=
  match rows with
  | [] => []
  | r :: rs => cells_row y 0 r ++ cells_from (y + 1)%Z rs
  end.

(** The cells of a surface in row-major order, with their [(x, y)]. *)
Definition cells (s : Surface) : list ((Z * Z) * Q) := cells_from 0 s.

Record MinMax : Set := mkMinMax {
  min_val : Q; max_val : Q; min_loc : Z * Z; max_loc : Z * Z
}.

Definition min_max_step (acc : MinMax) (c : (Z * Z) * Q) : MinMax :=
  let '(loc, v) := c in
  let mn := Qltb v (min_val acc) in
  let mx := Qltb (max_val acc) v in
  {| min_val := if mn then v else min_val acc;
     max_val := if mx then v else max_val acc;
     min_loc := if mn then loc else min_loc acc;
     max_loc := if mx then loc else max_loc acc |}.

(** [cv2.minMaxLoc]: the first minimum and the first maximum in row-major
    order. *)
Definition minMaxLoc (s : Surface) : MinMax :=
  match cells s with
  | [] => {| min_val := 0; max_val := 0; min_loc := (-1, -1)%Z; max_loc := (-1, -1)%Z |}
  | (loc, v) :: cs =>
      fold_left min_max_step cs
        {| min_val := v; max_val := v; min_loc := loc; max_loc := loc |}
  end.

(** [cv2.rectangle(result, (x1, y1), (x2, y2), 0, -1)]: every cell with
    [x1 <= x <= x2] and [y1 <= y <= y2] is set to 0. *)
Definition fill_rect (x1 y1 x2 y2 : Z) (s : Surface) : Surface :=
  let fix rows (y : Z) (rs : Surface) : Surface :=
    match rs with
    | [] => []
    | r :: rs' =>
        let fix cols (x : Z) (vs : list Q) : list Q :=
          match vs with
          | [] => []
          | v :: vs' =>
              (if (x1 <=? x)%Z && (x <=? x2)%Z && (y1 <=? y)%Z && (y <=? y2)%Z
               then 0 else v) :: cols (x + 1)%Z vs'
          end in
        cols 0%Z r :: rows (y + 1)%Z rs'
    end in
  rows 0%Z s.

Definition surface_cols (s : Surface) : Z :=
  match s with [] => 0%Z | r :: _ => Z.of_nat (List.length r) end.

Definition surface_rows (s : Surface) : Z := Z.of_nat (List.length s).

Definition mask_size : Z := 5.

(** The [while len(matches) < max_results:] loop of [find_template] with
    [multiple=True]; [k] is the number of iterations still allowed. *)
Fixpoint find_many_loop (h w : Z) (name : string) (method : MatchMethod)
    (threshold : Q) (k : nat) (result : Surface) : list TemplateMatch :=
  match k with
  | O => []
  | S k' =>
      let mm := minMaxLoc result in
      let invert_score := MatchMethod_eqb method SQDIFF in
      let score := if invert_score then 1 - min_val mm else max_val mm in
      let loc := if invert_score then min_loc mm else max_loc mm in
      if Qltb score threshold then []
      else
        let m := mkMatch loc (fst loc + w, snd loc + h)%Z score name method in
        let result' :=
          fill_rect (Z.max 0 (fst loc - mask_size)) (Z.max 0 (snd loc - mask_size))
                    (Z.min (surface_cols result) (fst loc + w + mask_size))
                    (Z.min (surface_rows result) (snd loc + h + mask_size)) result in
        m :: find_many_loop h w name method threshold k' result'
  end.

Inductive Result (A : Type) : Type :=
| Ok (a : A)
| Raise (msg : string).
Arguments Ok {A} a.
Arguments Raise {A} msg.

(** The two return shapes of [find_template]. *)
Inductive FindResult : Set :=
| One (m : option TemplateMatch)     (* multiple=False *)
| Many (ms : list TemplateMatch).    (* multiple=True *)

Definition no_match (multiple : bool) : FindResult :=
  if multiple then Many [] else One None.

(** [self.templates[name]] on the dict of loaded templates. *)
Definition template_get (templates : list (string * Image)) (name : string)
  : option Image :=
  match find (fun e => String.eqb (fst e) name) templates with
  | Some (_, img) => Some img
  | None => None
  end.

Section Matcher.

(** [cv2.matchTemplate(image, template, method)]; [None] is a [cv2.error]. *)
Variable match_template : Image -> Image -> MatchMethod -> option Surface.

Definition find_template (templates : list (string * Image)) (image : Image)
    (template_name : string) (method : MatchMethod) (threshold : Q)
    (multiple : bool) (max_results : Z) : Result FindResult :=
  match template_get templates template_name with
  | None => Ok (no_match multiple)
  | Some template =>
      if (img_h image <? img_h template)%nat || (img_w image <? img_w template)%nat
      then Ok (no_match multiple)
      else
        match match_template image template method with
        | None => Raise "cv2.error"%string
        | Some result =>
            let invert_score := MatchMethod_eqb method SQDIFF in
            let h := Z.of_nat (img_h template) in
            let w := Z.of_nat (img_w template) in
            if multiple then
              Ok (Many (find_many_loop h w template_name method threshold
                          (Z.to_nat max_results) result))
            else
              let mm := minMaxLoc result in
              let score := if invert_score then 1 - min_val mm else max_val mm in
              let loc := if invert_score then min_loc mm else max_loc mm in
              if Qltb score threshold then Ok (One None)
              else Ok (One (Some (mkMatch loc (fst loc + w, snd loc + h)%Z
                                          score template_name method)))
        end
  end.

End Matcher.

(** The confidence of a raw score, oriented so that higher is better. *)
Definition oriented_score (method : MatchMethod) (v : Q) : Q :=
  if MatchMethod_eqb method SQDIFF then 1 - v else v.

Lemma min_max_step_spec (acc : MinMax) (l : Z * Z) (v : Q) :
  let a := min_max_step acc (l, v) in
  ((min_loc a, min_val a) = (l, v) \/ (min_loc a, min_val a) = (min_loc acc, min_val acc)) /\
  ((max_loc a, max_val a) = (l, v) \/ (max_loc a, max_val a) = (max_loc acc, max_val acc)) /\
  min_val a <= min_val acc /\ min_val a <= v /\
  max_val acc <= max_val a /\ v <= max_val a.
Proof.
  unfold min_max_step; simpl.
  destruct (Qltb v (min_val acc)) eqn:Emin, (Qltb (max_val acc) v) eqn:Emax; simpl;
    repeat split; auto; try apply Qle_refl;
    repeat match goal with
    | H : Qltb _ _ = true |- _ => apply Qltb_iff, Qlt_le_weak in H
    | H : Qltb _ _ = false |- _ => apply Qltb_false in H
    end; assumption.
Qed.

Lemma fold_min_max (cs : list ((Z * Z) * Q)) : forall acc,
  let r := fold_left min_max_step cs acc in
  In (min_loc r, min_val r) ((min_loc acc, min_val acc) :: cs) /\
  In (max_loc r, max_val r) ((max_loc acc, max_val acc) :: cs) /\
  min_val r <= min_val acc /\ max_val acc <= max_val r /\
  (forall l v, In (l, v) cs -> min_val r <= v /\ v <= max_val r).
Proof.
  induction cs as [|[l v] cs IH]; intro acc; cbn [fold_left].
  - split; [left; reflexivity|]; split; [left; reflexivity|].
    split; [apply Qle_refl|]; split; [apply Qle_refl|]; intros ? ? [].
  - destruct (IH (min_max_step acc (l, v))) as [H1 [H2 [H3 [H4 H5]]]].
    destruct (min_max_step_spec acc l v) as [S1 [S2 [S3 [S4 [S5 S6]]]]].
    set (r := fold_left min_max_step cs (min_max_step acc (l, v))) in *.
    set (a := min_max_step acc (l, v)) in *.
    split; [|split; [|split; [|split]]].
    + destruct H1 as [E | E]; [rewrite <- E; destruct S1 as [S | S]; rewrite S|];
        auto with datatypes.
    + destruct H2 as [E | E]; [rewrite <- E; destruct S2 as [S | S]; rewrite S|];
        auto with datatypes.
    + apply Qle_trans with (min_val a); assumption.
    + apply Qle_trans with (max_val a); assumption.
    + intros l' v' [E | Hin]; [|apply H5 with l'; assumption].
      inversion E; subst l' v'; split;
        [apply Qle_trans with (min_val a) | apply Qle_trans with (max_val a)]; assumption.
Qed.

Lemma minMaxLoc_spec (s : Surface) :
  cells s <> [] ->
  In (min_loc (minMaxLoc s), min_val (minMaxLoc s)) (cells s) /\
  In (max_loc (minMaxLoc s), max_val (minMaxLoc s)) (cells s) /\
  (forall l v, In (l, v) (cells s) ->
     min_val (minMaxLoc s) <= v /\ v <= max_val (minMaxLoc s)).
Proof.
  unfold minMaxLoc; destruct (cells s) as [|[l v] cs]; [contradiction|]; intros _.
  destruct (fold_min_max cs {| min_val := v; max_val := v; min_loc := l; max_loc := l |})
    as [H1 [H2 [H3 [H4 H5]]]]; simpl in *.
  split; [assumption|]; split; [assumption|].
  intros l' v' [E | Hin]; [|apply H5 with l'; assumption].
  inversion E; subst; split; assumption.
Qed.

(** The location and raw score [find_template] reports: the first minimum
    for [SQDIFF], the first maximum otherwise. *)
Lemma best_cell (method : MatchMethod) (s : Surface) :
  cells s <> [] ->
  let mm := minMaxLoc s in
  let loc := if MatchMethod_eqb method SQDIFF then min_loc mm else max_loc mm in
  let v := if MatchMethod_eqb method SQDIFF then min_val mm else max_val mm in
  In (loc, v) (cells s) /\
  (if MatchMethod_eqb method SQDIFF then 1 - min_val mm else max_val mm)
    = oriented_score method v /\
  forall l' v', In (l', v') (cells s) -> oriented_score method v' <= oriented_score method v.
Proof.
  intros Hne; destruct (minMaxLoc_spec s Hne) as [Hmin [Hmax Hall]].
  unfold oriented_score; destruct method; simpl; (split; [assumption|]); split;
    try reflexivity; intros l' v' Hin; destruct (Hall l' v' Hin) as [H1 H2];
    try assumption.
  apply Qplus_le_r, Qopp_le_compat; assumption.
Qed.

(** Claim C6: with [multiple=False], [find_template] returns "no match"
    ([None]), without raising, whenever the identifier is not loaded or the
    stored template is taller or wider than the frame, whatever the
    threshold; otherwise (the template fits and [cv2.matchTemplate] yields
    its score surface) it returns the best location of the surface with its
    oriented confidence ([1 - raw] for [SQDIFF]) when that confidence meets
    the threshold, and "no match" when it does not. *)
Theorem find_template_single_spec
    (match_template : Image -> Image -> MatchMethod -> option Surface)
    (templates : list (string * Image)) (image : Image) (name : string)
    (method : MatchMethod) (threshold : Q) (max_results : Z) :
  (template_get templates name = None ->
     find_template match_template templates image name method threshold false max_results
       = Ok (One None)) /\
  (forall tpl, template_get templates name = Some tpl ->
     (img_h image < img_h tpl \/ img_w image < img_w tpl)%nat ->
     find_template match_template templates image name method threshold false max_results
       = Ok (One None)) /\
  (forall tpl s, template_get templates name = Some tpl ->
     (img_h tpl <= img_h image)%nat -> (img_w tpl <= img_w image)%nat ->
     match_template image tpl method = Some s -> cells s <> [] ->
     exists loc v,
       In (loc, v) (cells s) /\
       (forall loc' v', In (loc', v') (cells s) ->
          oriented_score method v' <= oriented_score method v) /\
       find_template match_template templates image name method threshold false max_results
       = Ok (One (if Qltb (oriented_score method v) threshold then None
                  else Some (mkMatch loc
                               (fst loc + Z.of_nat (img_w tpl),
                                snd loc + Z.of_nat (img_h tpl))%Z
                               (oriented_score method v) name method)))).
Proof.
  unfold find_template; split; [|split].
  - intros ->; reflexivity.
  - intros tpl -> Hbig.
    assert (E : ((img_h image <? img_h tpl)%nat || (img_w image <? img_w tpl)%nat) = true)
      by (apply orb_true_iff; destruct Hbig; [left | right]; apply Nat.ltb_lt; assumption).
    rewrite E; reflexivity.
  - intros tpl s -> Hh Hw Hmt Hne.
    assert (E : ((img_h image <? img_h tpl)%nat || (img_w image <? img_w tpl)%nat) = false)
      by (apply orb_false_iff; split; apply Nat.ltb_ge; assumption).
    rewrite E, Hmt.
    destruct (best_cell method s Hne) as [Hin [Hsc Hbest]].
    eexists; eexists; split; [exact Hin|]; split; [exact Hbest|].
    rewrite Hsc; destruct (Qltb _ threshold); [reflexivity|].
    destruct method; reflexivity.
Qed.

Lemma find_template_single_spec_witness :
  find_template (fun _ _ _ => Some [[1#2; 9#10]; [3#10; 1#5]])
    [("home/shop_icon"%string, mkImage 2 2 [])] (mkImage 3 3 [])
    "home/shop_icon"%string EXACT (4#5) false 5%Z
  = Ok (One (Some (mkMatch (1, 0)%Z (3, 2)%Z (9#10) "home/shop_icon"%string EXACT))) /\
  find_template (fun _ _ _ => None)
    [("home/shop_icon"%string, mkImage 4 4 [])] (mkImage 3 3 [])
    "home/shop_icon"%string SQDIFF 0 false 5%Z = Ok (One None).
Proof.
  split.
  - destruct (proj2 (proj2 (find_template_single_spec
        (fun _ _ _ => Some [[1#2; 9#10]; [3#10; 1#5]])
        [("home/shop_icon"%string, mkImage 2 2 [])] (mkImage 3 3 [])
        "home/shop_icon"%string EXACT (4#5) 5%Z))
        (mkImage 2 2 []) [[1#2; 9#10]; [3#10; 1#5]]
        eq_refl ltac:(cbn; lia) ltac:(cbn; lia) eq_refl ltac:(discriminate))
      as [loc [v [Hin [Hbest ->]]]].
    simpl in Hin.
    destruct Hin as [E | [E | [E | [E | []]]]]; inversion E; subst; simpl;
      try reflexivity;
      (* only the maximal cell satisfies [Hbest] *)
      exfalso; specialize (Hbest (1, 0)%Z (9#10) ltac:(simpl; tauto));
      unfold oriented_score in Hbest; simpl in Hbest;
      apply Qle_bool_iff in Hbest; discriminate.
  - apply (proj1 (proj2 (find_template_single_spec (fun _ _ _ => None)
        [("home/shop_icon"%string, mkImage 4 4 [])] (mkImage 3 3 [])
        "home/shop_icon"%string SQDIFF 0 5%Z)) (mkImage 4 4 []) eq_refl).
    left; cbn; lia.
Defined.

(** Two match rectangles [top_left]..[bottom_right] (right/bottom edges
    exclusive) share a pixel. *)
Definition rects_overlap (a b : TemplateMatch) : Prop :=
  (fst (top_left a) < fst (bottom_right b))%Z /\ (fst (top_left b) < fst (bottom_right a))%Z /\
  (snd (top_left a) < snd (bottom_right b))%Z /\ (snd (top_left b) < snd (bottom_right a))%Z.

(** What [multiple=True] does guarantee: at most [max_results] matches, each
    with confidence at least [threshold]. *)
Lemma find_many_loop_bounds h w name method threshold k : forall result,
  (List.length (find_many_loop h w name method threshold k result) <= k)%nat /\
  Forall (fun m => threshold <= confidence m)
    (find_many_loop h w name method threshold k result).
Proof.
  induction k as [|k IH]; intro result; simpl; [split; [lia | constructor]|].
  match goal with |- context [if Qltb ?sc threshold then _ else _] =>
    destruct (Qltb sc threshold) eqn:E end; simpl; [split; [lia | constructor]|].
  match goal with |- context [find_many_loop h w name method threshold k ?r] =>
    destruct (IH r) as [H1 H2] end.
  split; [lia|]; constructor; [apply Qltb_false; exact E | exact H2].
Qed.

Definition shop_icon_image : Image :=
  mkImage 2 2 [[(12, 40, 200); (15, 42, 198)]; [(11, 39, 201); (14, 41, 199)]]%Z.

(** Claim C4 at its failing input: the frame is the stored template itself,
    so [cv2.matchTemplate] with [TM_SQDIFF_NORMED] yields the 1x1 surface
    [[0]].  The mask written into the surface is 0, which for [SQDIFF] is the
    best possible raw score, so the same location is accepted again on every
    iteration: three identical (overlapping) matches. *)
Theorem find_many_sqdiff_repeats
    (match_template : Image -> Image -> MatchMethod -> option Surface) :
  match_template shop_icon_image shop_icon_image SQDIFF = Some [[0]] ->
  let m := mkMatch (0, 0)%Z (2, 2)%Z 1 "home/shop_icon"%string SQDIFF in
  find_template match_template [("home/shop_icon"%string, shop_icon_image)]
    shop_icon_image "home/shop_icon"%string SQDIFF (4#5) true 3%Z
  = Ok (Many [m; m; m]) /\
  rects_overlap m m.
Proof.
  intros Hmt m; unfold find_template; simpl; rewrite Hmt.
  split; [reflexivity|]; unfold rects_overlap; simpl; lia.
Qed.

Lemma find_many_sqdiff_repeats_witness :
  find_template (fun _ _ _ => Some [[0]]) [("home/shop_icon"%string, shop_icon_image)]
    shop_icon_image "home/shop_icon"%string SQDIFF (4#5) true 3%Z
  = Ok (Many [mkMatch (0, 0)%Z (2, 2)%Z 1 "home/shop_icon"%string SQDIFF;
              mkMatch (0, 0)%Z (2, 2)%Z 1 "home/shop_icon"%string SQDIFF;
              mkMatch (0, 0)%Z (2, 2)%Z 1 "home/shop_icon"%string SQDIFF]).
Proof.
  exact (proj1 (find_many_sqdiff_repeats (fun _ _ _ => Some [[0]]) eq_refl)).
Defined.

(** The suppression rectangle extends [mask_size] = 5 pixels to the left of
    an accepted location but the template's full width to the right, so with
    a correlation method a later match just left of an earlier one overlaps
    it: an 8-pixel-wide template on an 18x1 frame, surface scores 0.85 at
    x = 0 and 0.9 at x = 6. *)
Lemma find_many_exact_left_overlap
    (match_template : Image -> Image -> MatchMethod -> option Surface) :
  match_template (mkImage 1 18 []) (mkImage 1 8 []) EXACT =
    Some [[85#100; 1#10; 1#10; 1#10; 1#10; 1#10; 9#10; 1#10; 1#10; 1#10; 1#10]] ->
  let m1 := mkMatch (6, 0)%Z (14, 1)%Z (9#10) "t"%string EXACT in
  let m2 := mkMatch (0, 0)%Z (8, 1)%Z (85#100) "t"%string EXACT in
  find_template match_template [("t"%string, mkImage 1 8 [])] (mkImage 1 18 [])
    "t"%string EXACT (4#5) true 3%Z = Ok (Many [m1; m2]) /\
  rects_overlap m1 m2.
Proof.
  intros Hmt m1 m2; unfold find_template; simpl; rewrite Hmt.
  split; [reflexivity|]; unfold rects_overlap; simpl; lia.
Qed.

(* ------------------------------------------------------------------ *)
(** ** detection.py : [StateDetector.detect_state] *)

Record StateDefinition : Set := mkDef {
  required_templates : list string;
  confidence_threshold : Q;
  match_all : bool
}.

(** [self.state_definitions] as built by [StateDetector.__init__]. *)
Definition default_state_definitions : list (GameState * StateDefinition) :=
  [(HOME_SCREEN, mkDef ["home/menu_button"; "home/shop_button"]%string (4#5) true);
   (BATTLE, mkDef ["battle/battle_ui"; "battle/back_button"]%string (7#10) true);
   (SHOP, mkDef ["shop/shop_title"; "shop/purchase_button"]%string (3#4) false);
   (LOADING, mkDef ["common/loading_indicator"]%string (3#5) true);
   (ERROR, mkDef ["common/error_icon"; "common/error_message"]%string (7#10) false)].

(** [register_state_definition]: dict assignment. *)
Definition register_state_definition (defs : list (GameState * StateDefinition))
    (state : GameState) (d : StateDefinition) : list (GameState * StateDefinition) :=
  if existsb (fun e => GameState_eqb (fst e) state) defs
  then map (fun e => if GameState_eqb (fst e) state then (state, d) else e) defs
  else defs ++ [(state, d)].

Section Detector.

(** [self.template_matcher.find_template(screen_image, name,
    method=MatchMethod.EXACT, threshold=threshold)] on the analysed frame. *)
Variable find : string -> Q -> option TemplateMatch.

(** The inner [for template_name in required_templates] loop:
    [(matched_templates, total_confidence)]. *)
Definition count_matches (names : list string) (threshold : Q) : nat * Q :=
  fold_left (fun acc name =>
               match find name threshold with
               | Some m => (S (fst acc), snd acc + confidence m)
               | None => acc
               end) names (0%nat, 0).

(** [state_confidence[state] = avg_confidence]. *)
Definition conf_set (d : list (GameState * Q)) (s : GameState) (c : Q)
  : list (GameState * Q) :=
  if existsb (fun e => GameState_eqb (fst e) s) d
  then map (fun e => if GameState_eqb (fst e) s then (s, c) else e) d
  else d ++ [(s, c)].

(** One iteration of [for state, definition in self.state_definitions.items()]. *)
Definition detect_step (acc : list (GameState * Q)) (e : GameState * StateDefinition)
  : list (GameState * Q) :=
  let '(state, def) := e in
  let '(matched, total) := count_matches (required_templates def)
                                         (confidence_threshold def) in
  if (0 <? matched)%nat then
    let avg := total / inject_Z (Z.of_nat matched) in
    if (match_all def && (matched =? List.length (required_templates def))%nat)
       || (negb (match_all def) && (0 <? matched)%nat)
    then conf_set acc state avg else acc
  else acc.

Definition state_confidences (defs : list (GameState * StateDefinition))
  : list (GameState * Q) :=
  fold_left detect_step defs [].

(** Python's [max(items, key=lambda x: x[1])]: the first item whose key is
    not exceeded by a later one. *)
Definition py_max_conf (l : list (GameState * Q)) : option (GameState * Q) :=
  match l with
  | [] => None
  | x :: xs => Some (fold_left (fun best y => if Qltb (snd best) (snd y) then y else best)
                               xs x)
  end.

Definition detect_state (defs : list (GameState * StateDefinition)) : GameState :=
  match py_max_conf (state_confidences defs) with
  | None => UNKNOWN
  | Some (s, _) => s
  end.

(** The candidate notion of the specification: match-all needs every
    required template found, match-any at least one; its confidence is the
    average over the found templates. *)
Definition found_confidences (names : list string) (threshold : Q) : list Q :=
  flat_map (fun n => match find n threshold with
                     | Some m => [confidence m]
                     | None => []
                     end) names.

Definition is_candidate (d : StateDefinition) : bool :=
  let found n := match find n (confidence_threshold d) with
                 | Some _ => true | None => false end in
  if match_all d then forallb found (required_templates d)
  else existsb found (required_templates d).

Definition candidate_confidence (d : StateDefinition) : Q :=
  let fs := found_confidences (required_templates d) (confidence_threshold d) in
  fold_left Qplus fs 0 / inject_Z (Z.of_nat (List.length fs)).

Definition candidates (defs : list (GameState * StateDefinition))
  : list (GameState * Q) :=
  flat_map (fun e => if is_candidate (snd e) then [(fst e, candidate_confidence (snd e))]
                     else []) defs.

End Detector.

Section DetectorFacts.

Variable find : string -> Q -> option TemplateMatch.

Let found th n := match find n th with Some _ => true | None => false end.

Lemma count_matches_fold (names : list string) (th : Q) (n : nat) (t : Q) :
  fold_left (fun acc name =>
               match find name th with
               | Some m => (S (fst acc), snd acc + confidence m)
               | None => acc
               end) names (n, t)
  = ((n + List.length (found_confidences find names th))%nat,
     fold_left Qplus (found_confidences find names th) t).
Proof.
  revert n t; induction names as [|a names IH]; intros n t; simpl.
  - f_equal; lia.
  - destruct (find a th) as [m|] eqn:E; simpl; rewrite IH.
    + f_equal; lia.
    + reflexivity.
Qed.

Lemma count_matches_spec (names : list string) (th : Q) :
  count_matches find names th
  = (List.length (found_confidences find names th),
     fold_left Qplus (found_confidences find names th) 0).
Proof. unfold count_matches; rewrite count_matches_fold; reflexivity. Qed.

Lemma found_length_le (names : list string) (th : Q) :
  (List.length (found_confidences find names th) <= List.length names)%nat.
Proof.
  induction names as [|a names IH]; simpl; [lia|].
  destruct (find a th); simpl; lia.
Qed.

Lemma forallb_found (names : list string) (th : Q) :
  forallb (found th) names = (List.length (found_confidences find names th)
                              =? List.length names)%nat.
Proof.
  induction names as [|a names IH]; simpl; [reflexivity|].
  unfold found at 1; destruct (find a th); simpl.
  - exact IH.
  - pose proof (found_length_le names th).
    symmetry; apply Nat.eqb_neq; lia.
Qed.

Lemma existsb_found (names : list string) (th : Q) :
  existsb (found th) names = (0 <? List.length (found_confidences find names th))%nat.
Proof.
  induction names as [|a names IH]; simpl; [reflexivity|].
  unfold found at 1; destruct (find a th); simpl.
  - reflexivity.
  - exact IH.
Qed.

(** With a non-empty list of required templates the guard of the source is
    the candidate test. *)
Lemma detect_step_candidate (acc : list (GameState * Q)) (s : GameState)
    (d : StateDefinition) :
  required_templates d <> [] ->
  detect_step find acc (s, d)
  = if is_candidate find d then conf_set acc s (candidate_confidence find d) else acc.
Proof.
  intros Hne; unfold detect_step, is_candidate, candidate_confidence.
  rewrite count_matches_spec.
  fold (found (confidence_threshold d)).
  rewrite forallb_found, existsb_found.
  destruct (required_templates d) as [|r rs] eqn:Er; [contradiction|].
  set (k := List.length (found_confidences find (r :: rs) (confidence_threshold d))).
  destruct (match_all d); simpl.
  - destruct (0 <? k)%nat eqn:Hk; simpl.
    + rewrite orb_false_r; reflexivity.
    + apply Nat.ltb_ge in Hk.
      replace (k =? S (List.length rs))%nat with false by (symmetry; apply Nat.eqb_neq; lia).
      reflexivity.
  - destruct (0 <? k)%nat; reflexivity.
Qed.

End DetectorFacts.

Lemma conf_set_fresh (acc : list (GameState * Q)) (s : GameState) (c : Q) :
  ~ In s (map fst acc) -> conf_set acc s c = acc ++ [(s, c)].
Proof.
  intros Hn; unfold conf_set.
  destruct (existsb (fun e => GameState_eqb (fst e) s) acc) eqn:E; [|reflexivity].
  exfalso; apply existsb_exists in E as [[s' c'] [Hin Heq]]; simpl in Heq.
  apply GameState_eqb_spec in Heq; subst s'.
  apply Hn, (in_map fst _ _ Hin).
Qed.

Lemma candidates_keys (find : string -> Q -> option TemplateMatch)
    (defs : list (GameState * StateDefinition)) (s : GameState) :
  In s (map fst (candidates find defs)) -> In s (map fst defs).
Proof.
  induction defs as [|[s' d] defs IH]; simpl; [tauto|].
  destruct (is_candidate find d); simpl; intuition.
Qed.

Lemma state_confidences_fold (find : string -> Q -> option TemplateMatch)
    (defs : list (GameState * StateDefinition)) (acc : list (GameState * Q)) :
  NoDup (map fst defs) ->
  (forall s, In s (map fst acc) -> ~ In s (map fst defs)) ->
  Forall (fun e => required_templates (snd e) <> []) defs ->
  fold_left (detect_step find) defs acc = acc ++ candidates find defs.
Proof.
  revert acc; induction defs as [|[s d] defs IH]; intros acc Hnd Hdis Hne; cbn [fold_left].
  - rewrite app_nil_r; reflexivity.
  - inversion Hnd as [|? ? Hs Hnd']; subst.
    inversion Hne as [|? ? Hd Hne']; subst.
    rewrite (detect_step_candidate find acc s d Hd).
    change (candidates find ((s, d) :: defs)) with
      ((if is_candidate find d then [(s, candidate_confidence find d)] else [])
       ++ candidates find defs).
    destruct (is_candidate find d); simpl.
    + rewrite conf_set_fresh by (intros Hin; apply (Hdis s Hin); left; reflexivity).
      rewrite IH; [rewrite <- app_assoc; reflexivity | exact Hnd' | | exact Hne'].
      intros s' Hin; rewrite map_app, in_app_iff in Hin; simpl in Hin.
      destruct Hin as [Hin | [<- | []]].
      * intros H'; apply (Hdis s' Hin); right; exact H'.
      * exact Hs.
    + apply IH; [exact Hnd' | | exact Hne'].
      intros s' Hin H'; apply (Hdis s' Hin); right; exact H'.
Qed.

Lemma state_confidences_candidates (find : string -> Q -> option TemplateMatch)
    (defs : list (GameState * StateDefinition)) :
  NoDup (map fst defs) ->
  Forall (fun e => required_templates (snd e) <> []) defs ->
  state_confidences find defs = candidates find defs.
Proof.
  intros Hnd Hne; unfold state_confidences.
  rewrite state_confidences_fold; [reflexivity | exact Hnd | | exact Hne].
  simpl; tauto.
Qed.

Definition max_step (best y : GameState * Q) : GameState * Q :=
  if Qltb (snd best) (snd y) then y else best.

Lemma py_max_fold (xs pre post : list (GameState * Q)) (best : GameState * Q) :
  Forall (fun x => snd x < snd best) pre ->
  Forall (fun x => snd x <= snd best) post ->
  exists pre' post',
    pre ++ best :: post ++ xs = pre' ++ fold_left max_step xs best :: post' /\
    Forall (fun x => snd x < snd (fold_left max_step xs best)) pre' /\
    Forall (fun x => snd x <= snd (fold_left max_step xs best)) post'.
Proof.
  revert pre post best; induction xs as [|y xs IH]; intros pre post best Hpre Hpost; simpl.
  - exists pre, post; rewrite app_nil_r; auto.
  - destruct (Qltb (snd best) (snd y)) eqn:E.
    + replace (max_step best y) with y by (unfold max_step; rewrite E; reflexivity).
      apply Qltb_iff in E.
      assert (Hpre' : Forall (fun x => snd x < snd y) (pre ++ best :: post)).
      { apply Forall_app; split; [|constructor; [exact E|]].
        - eapply Forall_impl; [|exact Hpre]; intros x Hx.
          apply (Qlt_trans _ _ _ Hx E).
        - eapply Forall_impl; [|exact Hpost]; intros x Hx.
          apply (Qle_lt_trans _ _ _ Hx E). }
      destruct (IH (pre ++ best :: post) [] y Hpre' (Forall_nil _))
        as [pre' [post' [Heq [H1 H2]]]].
      exists pre', post'; split; [|split; assumption].
      rewrite <- Heq, <- app_assoc; reflexivity.
    + replace (max_step best y) with best by (unfold max_step; rewrite E; reflexivity).
      apply Qltb_false in E.
      assert (Hpost' : Forall (fun x => snd x <= snd best) (post ++ [y])).
      { apply Forall_app; split; [exact Hpost|constructor; [exact E|constructor]]. }
      destruct (IH pre (post ++ [y]) best Hpre Hpost') as [pre' [post' [Heq [H1 H2]]]].
      exists pre', post'; split; [|split; assumption].
      rewrite <- Heq, <- app_assoc; reflexivity.
Qed.

Lemma py_max_conf_spec (l : list (GameState * Q)) :
  l <> [] ->
  exists pre b post, py_max_conf l = Some b /\ l = pre ++ b :: post /\
    Forall (fun x => snd x < snd b) pre /\ Forall (fun x => snd x <= snd b) post.
Proof.
  destruct l as [|x xs]; [congruence|intros _].
  destruct (py_max_fold xs [] [] x) as [pre' [post' [Heq [H1 H2]]]];
    [constructor|constructor|].
  exists pre', (fold_left max_step xs x), post'; split; [reflexivity|].
  split; [exact Heq | split; assumption].
Qed.

Lemma nodup_key_unique {A B : Type} (l : list (A * B)) (k : A) (x y : B) :
  NoDup (map fst l) -> In (k, x) l -> In (k, y) l -> x = y.
Proof.
  induction l as [|[k' z] l IH]; simpl; [tauto|].
  intros Hnd; inversion Hnd as [|? ? Hk Hnd']; subst.
  intros [E1 | H1] [E2 | H2].
  - congruence.
  - inversion E1; subst; exfalso; apply Hk, (in_map fst _ _ H2).
  - inversion E2; subst; exfalso; apply Hk, (in_map fst _ _ H1).
  - exact (IH Hnd' H1 H2).
Qed.

Lemma candidates_in (find : string -> Q -> option TemplateMatch)
    (defs : list (GameState * StateDefinition)) (s : GameState) (d : StateDefinition) :
  In (s, d) defs -> is_candidate find d = true ->
  In (s, candidate_confidence find d) (candidates find defs).
Proof.
  intros Hin Hc; unfold candidates; apply in_flat_map.
  exists (s, d); split; [exact Hin|]; simpl; rewrite Hc; left; reflexivity.
Qed.

Lemma candidates_from (find : string -> Q -> option TemplateMatch)
    (defs : list (GameState * StateDefinition)) (s : GameState) (c : Q) :
  In (s, c) (candidates find defs) ->
  exists d, In (s, d) defs /\ is_candidate find d = true /\ c = candidate_confidence find d.
Proof.
  unfold candidates; intros H; apply in_flat_map in H as [[s' d] [Hin Hc]].
  simpl in Hc; destruct (is_candidate find d) eqn:E; simpl in Hc; [|contradiction].
  destruct Hc as [Hc|[]]; inversion Hc; subst; eauto.
Qed.

(** C5. For rules as the specification describes them: one per state (the
    keys of a dict), none for the sentinel [UNKNOWN], and each with a
    non-empty list of required templates, [detect_state] returns a state
    other than [UNKNOWN] exactly when some rule is a candidate; the state it returns is the first
    candidate, in registration order, of highest average confidence (every
    earlier candidate scores strictly less, every later one at most as much);
    a match-all rule over two templates with only one found yields no entry,
    and a match-any rule over two templates with one found yields an entry
    whose confidence equals that match's score. *)
Theorem detect_state_best_candidate (find : string -> Q -> option TemplateMatch)
    (defs : list (GameState * StateDefinition)) :
  NoDup (map fst defs) ->
  ~ In UNKNOWN (map fst defs) ->
  Forall (fun e => required_templates (snd e) <> []) defs ->
  (detect_state find defs <> UNKNOWN <->
   exists s d, In (s, d) defs /\ is_candidate find d = true) /\
  (detect_state find defs <> UNKNOWN ->
   exists pre c post,
     candidates find defs = pre ++ (detect_state find defs, c) :: post /\
     Forall (fun x => snd x < c) pre /\ Forall (fun x => snd x <= c) post) /\
  (forall s th a b ma,
     In (s, mkDef [a; b] th true) defs ->
     (find a th = Some ma /\ find b th = None) \/ (find a th = None /\ find b th = Some ma) ->
     ~ In s (map fst (state_confidences find defs))) /\
  (forall s th a b ma,
     In (s, mkDef [a; b] th false) defs ->
     (find a th = Some ma /\ find b th = None) \/ (find a th = None /\ find b th = Some ma) ->
     exists c, In (s, c) (state_confidences find defs) /\ c == confidence ma).
Proof.
  intros Hnd Hunk Hne.
  pose proof (state_confidences_candidates find defs Hnd Hne) as Hsc.
  assert (Hdet : forall pre b post, candidates find defs = pre ++ b :: post ->
            py_max_conf (candidates find defs) = Some b ->
            detect_state find defs = fst b /\ fst b <> UNKNOWN).
  { intros pre [s c] post Heq Hmax; unfold detect_state; rewrite Hsc, Hmax.
    split; [reflexivity|]; simpl; intros ->.
    apply Hunk, (candidates_keys find defs UNKNOWN).
    rewrite Heq, map_app, in_app_iff; right; left; reflexivity. }
  split; [|split; [|split]].
  - split.
    + intros Hd; destruct (candidates find defs) as [|[s c] l] eqn:Ec.
      * exfalso; apply Hd; unfold detect_state; rewrite Hsc; reflexivity.
      * destruct (candidates_from find defs s c) as [d [Hin [Hc _]]];
          [rewrite Ec; left; reflexivity|eauto].
    + intros [s [d [Hin Hc]]].
      pose proof (candidates_in find defs s d Hin Hc) as Hc'.
      destruct (py_max_conf_spec (candidates find defs)) as [pre [b [post [Hm [Heq _]]]]].
      * intros E; rewrite E in Hc'; exact Hc'.
      * destruct (Hdet pre b post Heq Hm) as [-> Hb]; exact Hb.
  - intros Hd.
    destruct (py_max_conf_spec (candidates find defs)) as [pre [[s c] [post [Hm [Heq [H1 H2]]]]]].
    + intros E; apply Hd; unfold detect_state; rewrite Hsc, E; reflexivity.
    + destruct (Hdet pre (s, c) post Heq Hm) as [Es _]; simpl in Es; rewrite Es.
      exists pre, c, post; auto.
  - intros s th a b ma Hin Hab; rewrite Hsc; intros Hs.
    apply in_map_iff in Hs as [[s' c] [Es Hc]]; simpl in Es; subst s'.
    destruct (candidates_from find defs s c Hc) as [d [Hd [Hcand _]]].
    rewrite <- (nodup_key_unique defs s _ _ Hnd Hin Hd) in Hcand.
    unfold is_candidate in Hcand; simpl in Hcand.
    destruct Hab as [[Ha Hb] | [Ha Hb]]; rewrite Ha, Hb in Hcand; simpl in Hcand;
      try rewrite andb_false_r in Hcand; discriminate.
  - intros s th a b ma Hin Hab; rewrite Hsc.
    assert (Hcand : is_candidate find (mkDef [a; b] th false) = true).
    { unfold is_candidate; simpl.
      destruct Hab as [[Ha Hb] | [Ha Hb]]; rewrite Ha, Hb; reflexivity. }
    exists (candidate_confidence find (mkDef [a; b] th false)).
    split; [exact (candidates_in find defs s _ Hin Hcand)|].
    unfold candidate_confidence, found_confidences; simpl.
    destruct Hab as [[Ha Hb] | [Ha Hb]]; rewrite Ha, Hb; simpl; field.
Qed.

(** A frame in which [find_template] reports [home/menu_button] at 0.9 and
    [shop/shop_title] at 0.95, and nothing else. *)
Definition sample_frame_find (name : string) (th : Q) : option TemplateMatch :=
  let hit c := if Qle_bool th c
               then Some (mkMatch (0, 0)%Z (10, 10)%Z c name EXACT) else None in
  if String.eqb name "home/menu_button" then hit (9#10)
  else if String.eqb name "shop/shop_title" then hit (19#20)
  else None.

(** The rules after [register_state_definition(GameState.SHOP, [])]. *)
Definition empty_shop_rules : list (GameState * StateDefinition) :=
  register_state_definition default_state_definitions SHOP (mkDef [] (7#10) true).

(** Outside the rules the specification describes: a match-all rule with no
    required template has every required template found, yet [detect_state]
    returns [UNKNOWN], since the source first requires
    [matched_templates > 0]. *)
Lemma detect_state_empty_rule :
  In (SHOP, mkDef [] (7#10) true) empty_shop_rules /\
  is_candidate (fun _ _ => None) (mkDef [] (7#10) true) = true /\
  detect_state (fun _ _ => None) empty_shop_rules = UNKNOWN.
Proof. vm_compute; split; [right; right; left; reflexivity | split; reflexivity]. Qed.

(** A rule registered for [UNKNOWN] can be a candidate, and is then what
    [detect_state] returns. *)
Lemma detect_state_unknown_rule :
  let defs := register_state_definition [] UNKNOWN
                (mkDef ["common/loading_indicator"]%string (3#5) true) in
  let find := fun (_ : string) (th : Q) => Some (mkMatch (0, 0)%Z (4, 4)%Z (9#10)
                                              "common/loading_indicator" EXACT) in
  (exists s d, In (s, d) defs /\ is_candidate find d = true) /\
  detect_state find defs = UNKNOWN.
Proof.
  vm_compute; split; [|reflexivity].
  eexists; eexists; split; [left; reflexivity | reflexivity].
Qed.

Lemma detect_state_best_candidate_witness :
  NoDup (map fst default_state_definitions) /\
  ~ In UNKNOWN (map fst default_state_definitions) /\
  Forall (fun e => required_templates (snd e) <> []) default_state_definitions /\
  detect_state sample_frame_find default_state_definitions = SHOP /\
  (detect_state sample_frame_find default_state_definitions <> UNKNOWN <->
   exists s d, In (s, d) default_state_definitions /\
               is_candidate sample_frame_find d = true).
Proof.
  assert (H1 : NoDup (map fst default_state_definitions)).
  { simpl; repeat constructor; simpl; intuition discriminate. }
  assert (H2 : ~ In UNKNOWN (map fst default_state_definitions)).
  { simpl; intuition discriminate. }
  assert (H3 : Forall (fun e => required_templates (snd e) <> []) default_state_definitions).
  { repeat constructor; simpl; discriminate. }
  split; [exact H1|]; split; [exact H2|]; split; [exact H3|]; split.
  - vm_compute; reflexivity.
  - exact (proj1 (detect_state_best_candidate sample_frame_find default_state_definitions
                    H1 H2 H3)).
Defined.

(* ------------------------------------------------------------------ *)
(** ** core/input/controller.py : [InputController.perform_action_sequence] *)

Module Input.

(** Values of an action dictionary. *)
Inductive PyVal : Type :=
| PyInt (z : Z)
| PyFloat (q : Q)
| PyStr (s : string)
| PyNone.

(** An action dictionary, its keys in insertion order. *)
Definition Action := list (string * PyVal).

(** [action.get(k)]. *)
Fixpoint dict_get (a : Action) (k : string) : option PyVal :=
  match a with
  | [] => None
  | (k', v) :: a' => if String.eqb k' k then Some v else dict_get a' k
  end.

(** [str.lower()] on ASCII text. *)
Definition ascii_lower (c : Ascii.ascii) : Ascii.ascii :=
  let n := Ascii.nat_of_ascii c in
  if (65 <=? n)%nat && (n <=? 90)%nat then Ascii.ascii_of_nat (n + 32) else c.

Fixpoint lower (s : string) : string :=
  match s with
  | EmptyString => EmptyString
  | String c s' => String (ascii_lower c) (lower s')
  end.

(** The calls the controller makes into [pyautogui], [time.sleep] and the
    logger, with the arguments taken from the action. *)
Inductive IEvent : Type :=
| RandomDelay                       (* [_random_delay()] *)
| MoveTo (x y : PyVal)              (* [pyautogui.moveTo] *)
| MouseClick (x y : PyVal) (clicks : Z) (button : string)
| DragTo (x y : PyVal)              (* [pyautogui.dragTo] *)
| Press (key : PyVal)
| Write (text : PyVal)
| Scroll (clicks : PyVal)
| Sleep (seconds : PyVal)           (* [time.sleep(action['seconds'])] *)
| LogWarning (action_type : string)
| LogError (action_type : string).

Section Controller.

(** Which device calls raise (a [pyautogui] fail-safe, a [TypeError] on an
    argument of the wrong type, ...), and with what exception. *)
Variable raises : IEvent -> option string.

(** Running a method body: its device calls in order, stopping at the first
    one that raises. *)
Fixpoint run (calls : list IEvent) : list IEvent * option string :=
  match calls with
  | [] => ([], None)
  | c :: cs =>
      match raises c with
      | Some e => ([], Some e)
      | None => let '(ev, r) := run cs in (c :: ev, r)
      end
  end.

Definition move_to (x y : PyVal) : list IEvent := [RandomDelay; MoveTo x y].

Definition click (x y : PyVal) (button : string) (clicks : Z) : list IEvent :=
  move_to x y ++ [RandomDelay; MouseClick x y clicks button].

Definition double_click (x y : PyVal) : list IEvent := click x y "left" 2.

Definition right_click (x y : PyVal) : list IEvent := click x y "right" 1.

Definition drag (sx sy ex ey : PyVal) : list IEvent :=
  move_to sx sy ++ [RandomDelay; DragTo ex ey].

Definition swipe (sx sy ex ey : PyVal) : list IEvent := drag sx sy ex ey.

Definition press_key (k : PyVal) : list IEvent := [RandomDelay; Press k].

Definition type_text (t : PyVal) : list IEvent := [RandomDelay; Write t].

(** [if x is not None and y is not None: self.move_to(x, y)]. *)
Definition scroll (c x y : PyVal) : list IEvent :=
  match x, y with
  | PyNone, _ | _, PyNone => []
  | _, _ => move_to x y
  end ++ [RandomDelay; Scroll c].

(** [action[k]]: a missing key raises [KeyError]. *)
Definition req (a : Action) (k : string) : option PyVal := dict_get a k.

(** [action.get(k)]. *)
Definition opt (a : Action) (k : string) : PyVal :=
  match dict_get a k with Some v => v | None => PyNone end.

(** The body of the [try]: the device calls of the matching branch, or
    [None] when the arguments are evaluated and a key is missing. *)
Definition action_calls (a : Action) (action_type : string) : option (list IEvent) :=
  if String.eqb action_type "click" then
    match req a "x", req a "y" with
    | Some x, Some y => Some (click x y "left" 1) | _, _ => None end
  else if String.eqb action_type "right_click" then
    match req a "x", req a "y" with
    | Some x, Some y => Some (right_click x y) | _, _ => None end
  else if String.eqb action_type "double_click" then
    match req a "x", req a "y" with
    | Some x, Some y => Some (double_click x y) | _, _ => None end
  else if String.eqb action_type "drag" || String.eqb action_type "swipe" then
    match req a "start_x", req a "start_y", req a "end_x", req a "end_y" with
    | Some sx, Some sy, Some ex, Some ey => Some (drag sx sy ex ey)
    | _, _, _, _ => None
    end
  else if String.eqb action_type "key" then
    option_map press_key (req a "key")
  else if String.eqb action_type "type" then
    option_map type_text (req a "text")
  else if String.eqb action_type "scroll" then
    option_map (fun c => scroll c (opt a "x") (opt a "y")) (req a "clicks")
  else if String.eqb action_type "delay" then
    option_map (fun s => [Sleep s]) (req a "seconds")
  else Some [LogWarning action_type].

(** One iteration of the loop: [action.get('type', '').lower()] outside the
    [try] (an [AttributeError] on a non-string type leaves the method), then
    the branch inside [try ... except Exception], which logs the error. *)
Definition perform_action (a : Action) : list IEvent * option string :=
  match match dict_get a "type" with Some v => v | None => PyStr "" end with
  | PyStr s =>
      let action_type := lower s in
      match action_calls a action_type with
      | None => ([LogError action_type], None)
      | Some calls =>
          let '(ev, r) := run calls in
          match r with
          | None => (ev, None)
          | Some _ => (ev ++ [LogError action_type], None)
          end
      end
  | _ => ([], Some "AttributeError"%string)
  end.

Fixpoint perform_action_sequence (actions : list Action) : list IEvent * option string :=
  match actions with
  | [] => ([], None)
  | a :: rest =>
      let '(ev, r) := perform_action a in
      match r with
      | Some e => (ev, Some e)
      | None => let '(ev', r') := perform_action_sequence rest in (ev ++ ev', r')
      end
  end.

End Controller.

End Input.

(* ------------------------------------------------------------------ *)
(** ** main.py : [NikkeAutomation.navigate_to] and [_execute_action] *)

(** [TemplateMatch.center]. *)
Definition center (m : TemplateMatch) : Z * Z :=
  ((fst (top_left m) + fst (bottom_right m)) / 2,
   (snd (top_left m) + snd (bottom_right m)) / 2)%Z.

Inductive Warning : Set := TemplateNotFound | UnknownAction | ActionError.

(** Observable effects of the automation, in order: captures, the calls of
    [input_controller] into [pyautogui] and [time.sleep] (see [Input]), the
    [time.sleep] of [navigate_to], and the warnings and errors logged by
    [_execute_action]. *)
Inductive Event : Type :=
| Captured (n : nat)
| Device (c : Input.IEvent)
| Slept (d : Q)
| Warned (kind : Warning) (action_name : string).

Record World : Type := mkWorld {
  mgr : StateManager;
  clock : Q;
  captures : nat;
  events : list Event
}.

Definition emit (w : World) (e : Event) : World :=
  mkWorld (mgr w) (clock w) (captures w) (events w ++ [e]).

(** [time.sleep(d)]. *)
Definition sleep (w : World) (d : Q) : World :=
  mkWorld (mgr w) (clock w + d) (captures w) (events w ++ [Slept d]).

Section Automation.

(** The frames returned by successive calls of [screen_capture.capture()]. *)
Variable screen : nat -> Image.
(** [state_detector.detect_state]. *)
Variable detect : Image -> GameState.
(** [cv2.matchTemplate] and the loaded templates of [template_matcher]. *)
Variable match_template : Image -> Image -> MatchMethod -> option Surface.
Variable templates : list (string * Image).
(** Whether a device call raises (e.g. [pyautogui.FailSafeException]), and
    how long it takes: the random [time.sleep] of [_random_delay], the random
    [duration] of [moveTo], and [pyautogui.PAUSE] after each [pyautogui] call.
    Both may depend on everything that happened before. *)
Variable device_raises : World -> Input.IEvent -> option string.
Variable device_time : World -> Input.IEvent -> Q.

Definition capture (w : World) : Image * World :=
  (screen (captures w),
   mkWorld (mgr w) (clock w) (S (captures w)) (events w ++ [Captured (captures w)])).

(** [NikkeAutomation.update_state]. *)
Definition automation_update_state (w : World) : GameState * World :=
  let '(frame, w1) := capture w in
  let detected_state := detect frame in
  let '(_, m) := update_state (mgr w1) detected_state (clock w1) in
  (detected_state, mkWorld m (clock w1) (captures w1) (events w1)).

(** [action_name[6:]]. *)
Definition drop6 (s : string) : string := substring 6 (String.length s - 6) s.

(** Device calls in order, each taking its time; the first one that raises
    stops the method, its exception propagating. *)
Fixpoint run_device (w : World) (calls : list Input.IEvent) : option string * World :=
  match calls with
  | [] => (None, w)
  | c :: cs =>
      match device_raises w c with
      | Some e => (Some e, w)
      | None =>
          run_device (mkWorld (mgr w) (clock w + device_time w c) (captures w)
                              (events w ++ [Device c])) cs
      end
  end.

(** [InputController.click_template(match)] with its default offsets 0:
    [self.click(center_x, center_y)]. *)
Definition click_template (m : TemplateMatch) : list Input.IEvent :=
  Input.click (Input.PyInt (fst (center m))) (Input.PyInt (snd (center m))) "left" 1.

(** [_execute_action]; a [cv2.error] raised by [find_template] and an
    exception raised by a device call of [click_template] are caught by the
    [except Exception] clause, which logs an error and returns [False]. *)
Definition execute_action (w : World) (action_name : string) : bool * World :=
  let '(frame, w1) := capture w in
  if String.prefix "click_" action_name then
    let template_name := drop6 action_name in
    match find_template match_template templates frame template_name EXACT (7#10)
            false 5 with
    | Ok (One (Some m)) =>
        match run_device w1 (click_template m) with
        | (None, w2) => (true, w2)
        | (Some _, w2) => (false, emit w2 (Warned ActionError action_name))
        end
    | Ok _ => (false, emit w1 (Warned TemplateNotFound action_name))
    | Raise _ => (false, emit w1 (Warned ActionError action_name))
    end
  else (false, emit w1 (Warned UnknownAction action_name)).

(** [for action_name in transition.action_sequence: self._execute_action(...)]. *)
Definition execute_actions (w : World) (actions : list string) : World :=
  fold_left (fun w a => snd (execute_action w a)) actions w.

(** One hop of the [for transition in path] loop, up to the comparison. *)
Definition perform_transition (w : World) (t : StateTransition) : GameState * World :=
  let w1 := execute_actions w (action_sequence t) in
  let w2 := sleep w1 (expected_duration t) in
  automation_update_state w2.

Fixpoint run_path (w : World) (path : list StateTransition) : bool * World :=
  match path with
  | [] => (true, w)
  | t :: rest =>
      let '(new_state, w3) := perform_transition w t in
      if GameState_eqb new_state (to_state t) then run_path w3 rest
      else (false, w3)
  end.

(** [navigate_to]. *)
Definition navigate_to (w : World) (target_state : GameState) : bool * World :=
  let '(current, w1) := automation_update_state w in
  if GameState_eqb current target_state then (true, w1)
  else
    match find_path (mgr w1) target_state with
    | None | Some [] => (false, w1)
    | Some path => run_path w1 path
    end.

End Automation.

Lemma update_state_current (m : StateManager) (s : GameState) (now : Q) :
  current_state (snd (update_state m s now)) = s.
Proof.
  unfold update_state; destruct (GameState_eqb s (current_state m)) eqn:E; simpl.
  - apply GameState_eqb_spec in E; congruence.
  - reflexivity.
Qed.

Section AutomationFacts.

Variable screen : nat -> Image.
Variable detect : Image -> GameState.
Variable match_template : Image -> Image -> MatchMethod -> option Surface.
Variable templates : list (string * Image).
Variable device_raises : World -> Input.IEvent -> option string.
Variable device_time : World -> Input.IEvent -> Q.

Lemma automation_update_state_current (w : World) :
  current_state (mgr (snd (automation_update_state screen detect w)))
  = fst (automation_update_state screen detect w).
Proof.
  unfold automation_update_state, capture; simpl.
  destruct (update_state _ _ _) as [b m] eqn:E; simpl.
  rewrite <- (update_state_current (mgr w) (detect (screen (captures w))) (clock w)), E.
  reflexivity.
Qed.

Lemma run_path_app (w : World) (pre l : list StateTransition) :
  run_path screen detect match_template templates device_raises device_time w (pre ++ l)
  = let '(b, w') := run_path screen detect match_template templates device_raises device_time w pre in
    if b then run_path screen detect match_template templates device_raises device_time w' l else (false, w').
Proof.
  revert w; induction pre as [|t pre IH]; intros w; simpl; [reflexivity|].
  destruct (perform_transition screen detect match_template templates device_raises device_time w t) as [s w3].
  destruct (GameState_eqb s (to_state t)); [apply IH | reflexivity].
Qed.

End AutomationFacts.

(** C2. Whatever the capture sequence, detector and matcher: when
    [navigate_to] has found a path, has completed its first hops, and after
    the actions, the sleep and the re-detection of the next transition [t]
    the detected state [s] differs from [to_state t], then [navigate_to]
    returns [False] in exactly the world left by that hop (the remaining
    transitions of the path leave no trace), and the manager's current state
    is the detected [s]. *)
Theorem navigate_to_aborts_on_mismatch (screen : nat -> Image) (detect : Image -> GameState)
    (match_template : Image -> Image -> MatchMethod -> option Surface)
    (templates : list (string * Image))
    (device_raises : World -> Input.IEvent -> option string)
    (device_time : World -> Input.IEvent -> Q) (w : World) (target : GameState)
    (cur : GameState) (w1 : World) (pre : list StateTransition) (t : StateTransition)
    (rest : list StateTransition) (wp : World) (s : GameState) (w3 : World) :
  automation_update_state screen detect w = (cur, w1) ->
  cur <> target ->
  find_path (mgr w1) target = Some (pre ++ t :: rest) ->
  run_path screen detect match_template templates device_raises device_time w1 pre = (true, wp) ->
  perform_transition screen detect match_template templates device_raises device_time wp t = (s, w3) ->
  s <> to_state t ->
  navigate_to screen detect match_template templates device_raises device_time w target = (false, w3) /\
  current_state (mgr w3) = s.
Proof.
  intros Hu Hne Hp Hpre Ht Hs.
  split.
  - unfold navigate_to; rewrite Hu.
    destruct (GameState_eqb cur target) eqn:E;
      [apply GameState_eqb_spec in E; contradiction|].
    rewrite Hp.
    destruct (pre ++ t :: rest) as [|t0 l] eqn:El; [destruct pre; discriminate|].
    rewrite <- El, run_path_app, Hpre; simpl; rewrite Ht.
    destruct (GameState_eqb s (to_state t)) eqn:E2;
      [apply GameState_eqb_spec in E2; contradiction | reflexivity].
  - unfold perform_transition in Ht.
    pose proof (automation_update_state_current screen detect
                  (sleep (execute_actions screen match_template templates device_raises device_time wp
                            (action_sequence t)) (expected_duration t))) as Hc.
    rewrite Ht in Hc; exact Hc.
Qed.

(** The spec's scenario: the session starts from [StateManager()], the
    detector keeps reporting [HOME_SCREEN], and [navigate_to(SHOP)] follows the
    default [HOME_SCREEN -> SHOP] transition. *)
Definition nav_world0 : World := mkWorld init_manager 0 0 [].

Definition home_to_shop : StateTransition :=
  mkTransition HOME_SCREEN SHOP ["click_template:home/shop_icon"%string] 2.

Definition stuck_on_home (_ : Image) : GameState := HOME_SCREEN.

Lemma navigate_to_aborts_on_mismatch_witness :
  navigate_to (fun _ => shop_icon_image) stuck_on_home (fun _ _ _ => None) [] (fun _ _ => None) (fun _ _ => 0)
    nav_world0 SHOP
  = (false, snd (perform_transition (fun _ => shop_icon_image) stuck_on_home
                   (fun _ _ _ => None) [] (fun _ _ => None) (fun _ _ => 0)
                   (snd (automation_update_state (fun _ => shop_icon_image)
                           stuck_on_home nav_world0)) home_to_shop)) /\
  current_state (mgr (snd (perform_transition (fun _ => shop_icon_image) stuck_on_home
                   (fun _ _ _ => None) [] (fun _ _ => None) (fun _ _ => 0)
                   (snd (automation_update_state (fun _ => shop_icon_image)
                           stuck_on_home nav_world0)) home_to_shop))) = HOME_SCREEN.
Proof.
  apply (navigate_to_aborts_on_mismatch (fun _ => shop_icon_image) stuck_on_home
           (fun _ _ _ => None) [] (fun _ _ => None) (fun _ _ => 0) nav_world0 SHOP HOME_SCREEN
           (snd (automation_update_state (fun _ => shop_icon_image) stuck_on_home nav_world0))
           [] home_to_shop []
           (snd (automation_update_state (fun _ => shop_icon_image) stuck_on_home nav_world0))
           HOME_SCREEN).
  - reflexivity.
  - discriminate.
  - reflexivity.
  - reflexivity.
  - reflexivity.
  - discriminate.
Defined.

(** The two default transitions of [_register_default_transitions] that
    carry the action forms ["click_template:X"] and ["wait:N"]. *)
Lemma default_action_forms :
  lookup_transition (transitions init_manager) (HOME_SCREEN, SHOP) = Some home_to_shop /\
  exists t, lookup_transition (transitions init_manager) (ERROR, HOME_SCREEN) = Some t /\
            action_sequence t = ["click_template:common/confirm_button"%string; "wait:2.0"%string].
Proof. split; [reflexivity | eexists; split; reflexivity]. Qed.

(** C3 (the executor does not read the descriptors it is given). The frame
    shows the loaded template [home/shop_icon] with a perfect score, so
    [find_template] locates ["home/shop_icon"] at 0.7; yet executing the
    default action ["click_template:home/shop_icon"] strips only ["click_"],
    looks up ["template:home/shop_icon"], which is not loaded, clicks nothing
    and logs "Template not found"; and ["wait:2.0"] is an unknown action: no
    sleep, the clock unchanged, a warning logged. *)
Theorem execute_action_default_descriptors
    (match_template : Image -> Image -> MatchMethod -> option Surface)
    (device_raises : World -> Input.IEvent -> option string)
    (device_time : World -> Input.IEvent -> Q) (w : World) :
  match_template shop_icon_image shop_icon_image EXACT = Some [[1]] ->
  let templates := [("home/shop_icon"%string, shop_icon_image)] in
  let screen := fun (_ : nat) => shop_icon_image in
  find_template match_template templates shop_icon_image "home/shop_icon" EXACT (7#10)
    false 5
  = Ok (One (Some (mkMatch (0, 0)%Z (2, 2)%Z 1 "home/shop_icon" EXACT))) /\
  drop6 "click_template:home/shop_icon" = "template:home/shop_icon"%string /\
  execute_action screen match_template templates device_raises device_time w "click_template:home/shop_icon"
  = (false, emit (snd (capture screen w))
                 (Warned TemplateNotFound "click_template:home/shop_icon")) /\
  execute_action screen match_template templates device_raises device_time w "wait:2.0"
  = (false, emit (snd (capture screen w)) (Warned UnknownAction "wait:2.0")) /\
  clock (snd (execute_action screen match_template templates device_raises device_time w "wait:2.0")) = clock w.
Proof.
  intros Hmt templates screen.
  split; [|split; [reflexivity | split; [reflexivity | split; reflexivity]]].
  unfold find_template; cbn -[minMaxLoc]; rewrite Hmt.
  vm_compute; reflexivity.
Qed.

Lemma execute_action_default_descriptors_witness :
  let templates := [("home/shop_icon"%string, shop_icon_image)] in
  let screen := fun (_ : nat) => shop_icon_image in
  execute_action screen (fun _ _ _ => Some [[1]]) templates (fun _ _ => None) (fun _ _ => 0)
    nav_world0
    "click_template:home/shop_icon"
  = (false, emit (snd (capture screen nav_world0))
                 (Warned TemplateNotFound "click_template:home/shop_icon")).
Proof.
  intros templates screen.
  exact (proj1 (proj2 (proj2
    (execute_action_default_descriptors (fun _ _ _ => Some [[1]]) (fun _ _ => None)
       (fun _ _ => 0) nav_world0 eq_refl)))).
Defined.

(* ------------------------------------------------------------------ *)
(** * Further properties of the manager *)

(** The change history determines the rest of the manager's state: with an
    empty history the manager is as constructed; otherwise the last entry is
    the current state with the time it was entered, and the previous state is
    the state of the entry before it ([UNKNOWN] if there is none). *)
Theorem manager_history_determines_state (m : StateManager) :
  mgr_reachable m ->
  (state_history m = [] /\ current_state m = UNKNOWN /\ previous_state m = None /\
   stable_state_time m = 0) \/
  (exists h', state_history m = h' ++ [(current_state m, stable_state_time m)] /\
              previous_state m = Some (last (map fst h') UNKNOWN)).
Proof.
  induction 1 as [| m s now _ IH | m f t acts d _ IH].
  - left; repeat split.
  - unfold update_state.
    destruct (GameState_eqb s (current_state m)) eqn:E; [exact IH|].
    right; simpl; exists (state_history m); split; [reflexivity|].
    f_equal.
    destruct IH as [[-> [-> _]] | [h' [-> _]]]; [reflexivity|].
    rewrite map_app; simpl; rewrite last_last; reflexivity.
  - exact IH.
Qed.

Lemma manager_history_determines_state_witness :
  let m := snd (update_state (snd (update_state init_manager HOME_SCREEN 5)) SHOP 9) in
  state_history m = [(HOME_SCREEN, 5); (SHOP, 9)] /\
  ((state_history m = [] /\ current_state m = UNKNOWN /\ previous_state m = None /\
    stable_state_time m = 0) \/
   (exists h', state_history m = h' ++ [(current_state m, stable_state_time m)] /\
               previous_state m = Some (last (map fst h') UNKNOWN))).
Proof.
  intros m; split; [reflexivity|].
  apply manager_history_determines_state.
  apply mr_update, mr_update, mr_init.
Defined.

Lemma dict_set_in (ts : list StateTransition) (t : StateTransition) :
  In t (dict_set ts t).
Proof.
  pose proof (dict_set_lookup ts t) as H; unfold lookup_transition in H.
  apply find_some in H; apply H.
Qed.

(** Registering a transition out of the current state makes it, alone, the
    path [find_path] returns to its target. *)
Theorem register_then_find_path (m : StateManager) (t : GameState)
    (acts : list string) (d : Q) :
  t <> current_state m ->
  find_path (register_transition m (current_state m) t acts d) t
  = Some [mkTransition (current_state m) t acts d].
Proof.
  intros Hne.
  set (m' := register_transition m (current_state m) t acts d).
  set (nt := mkTransition (current_state m) t acts d).
  assert (Hcur : current_state m' = current_state m) by reflexivity.
  assert (Hin : In nt (transitions m')) by apply dict_set_in.
  assert (Hp1 : is_path (transitions m') (current_state m') [nt] t).
  { change [nt] with ([] ++ [nt]); change t with (to_state nt).
    apply path_snoc; [rewrite Hcur; apply path_nil | exact Hin]. }
  destruct (find_path_cases m' t) as [[E _] | [_ Hfp]]; [congruence|].
  destruct (find_path m' t) as [p|]; [|destruct (Hfp _ Hp1)].
  destruct Hfp as [Hp Hmin]; specialize (Hmin _ Hp1); simpl in Hmin.
  destruct (is_path_inv _ _ _ _ Hp) as [[-> E] | [q [u [-> [Hq [Hu Hto]]]]]];
    [rewrite Hcur in E; congruence|].
  rewrite length_app in Hmin; simpl in Hmin.
  destruct q; [|simpl in Hmin; lia].
  destruct (is_path_inv _ _ _ _ Hq) as [[_ Hf] | [q' [u' [Eq _]]]];
    [|destruct q'; discriminate].
  f_equal; simpl; f_equal.
  apply (dict_set_only (transitions m) nt u Hu).
  unfold key; simpl; rewrite Hto, Hf; reflexivity.
Qed.

Lemma register_then_find_path_witness :
  find_path (register_transition init_manager UNKNOWN BATTLE ["click_template:battle"%string] 1)
    BATTLE = Some [mkTransition UNKNOWN BATTLE ["click_template:battle"%string] 1].
Proof.
  apply (register_then_find_path init_manager BATTLE); discriminate.
Defined.

Lemma is_path_prefix (ts : list StateTransition) (u : GameState) p v :
  is_path ts u p v -> forall q1 q2, p = q1 ++ q2 -> exists y, is_path ts u q1 y.
Proof.
  induction 1 as [|p t Hp IH Ht]; intros q1 q2 E.
  - destruct q1; [exists u; constructor | discriminate].
  - destruct q2 as [|e q2] using rev_ind.
    + rewrite app_nil_r in E; subst q1; exists (to_state t); constructor; assumption.
    + rewrite app_assoc in E; apply app_inj_tail in E as [E _].
      exact (IH q1 q2 E).
Qed.

Lemma is_path_end (ts : list StateTransition) (u : GameState) q e y :
  is_path ts u (q ++ [e]) y -> y = to_state e /\ is_path ts u q (from_state e).
Proof.
  intros H; destruct (is_path_inv _ _ _ _ H) as [[E _] | [q' [t [E [Hq [_ Hto]]]]]].
  - destruct q; discriminate.
  - apply app_inj_tail in E as [-> ->]; split; [symmetry; exact Hto | exact Hq].
Qed.

(** Every path can be shortened to one that never revisits a state. *)
Lemma is_path_simple (ts : list StateTransition) (u : GameState) p v :
  is_path ts u p v ->
  exists q, is_path ts u q v /\ NoDup (u :: map to_state q) /\
            (q = p \/ (List.length q < List.length p)%nat).
Proof.
  induction 1 as [|p t Hp IH Ht].
  - exists []; split; [constructor|]; split; [repeat constructor; simpl; tauto | left; reflexivity].
  - destruct IH as [q [Hq [Hnd Hqp]]].
    destruct (in_dec GameState_eq_dec (to_state t) (u :: map to_state q)) as [Hdup | Hfresh].
    + destruct Hdup as [Eu | Hin].
      * exists []; rewrite <- Eu; split; [constructor|].
        split; [repeat constructor; simpl; tauto|right].
        rewrite length_app; simpl; lia.
      * apply in_map_iff in Hin as [e [Ee Hin]].
        apply in_split in Hin as [q1 [q2 ->]].
        destruct (is_path_prefix _ _ _ _ Hq (q1 ++ [e]) q2) as [y Hy];
          [rewrite <- app_assoc; reflexivity|].
        destruct (is_path_end _ _ _ _ _ Hy) as [-> _].
        exists (q1 ++ [e]); rewrite <- Ee; split; [exact Hy|]; split.
        -- assert (Eq : u :: map to_state (q1 ++ e :: q2)
                        = (u :: map to_state (q1 ++ [e])) ++ map to_state q2)
             by (rewrite !map_app; simpl; rewrite <- app_assoc; reflexivity).
           rewrite Eq in Hnd; apply NoDup_app_remove_r in Hnd; exact Hnd.
        -- right; rewrite !length_app; simpl.
           destruct Hqp as [E | Hlt]; [subst p|]; rewrite ?length_app in *; simpl in *; lia.
    + exists (q ++ [t]); split; [constructor; assumption|]; split.
      * rewrite map_app; simpl.
        change (u :: map to_state q ++ [to_state t]) with ((u :: map to_state q) ++ [to_state t]).
        apply nodup_snoc; assumption.
      * destruct Hqp as [-> | Hlt]; [left; reflexivity|right].
        rewrite !length_app; simpl; lia.
Qed.

(** A path returned by [find_path] never passes through a state twice, so it
    has at most 9 transitions (there are 10 game states). *)
Theorem find_path_simple (m : StateManager) (target : GameState)
    (p : list StateTransition) :
  find_path m target = Some p ->
  NoDup (current_state m :: map to_state p) /\ (List.length p <= 9)%nat.
Proof.
  intros Hf.
  assert (Hnd : NoDup (current_state m :: map to_state p)).
  { destruct (find_path_cases m target) as [[_ E] | [_ Hfp]].
    - rewrite Hf in E; injection E as ->; repeat constructor; simpl; tauto.
    - rewrite Hf in Hfp; destruct Hfp as [Hp Hmin].
      destruct (is_path_simple _ _ _ _ Hp) as [q [Hq [Hndq [-> | Hlt]]]]; [exact Hndq|].
      specialize (Hmin q Hq); lia. }
  split; [exact Hnd|].
  pose proof (NoDup_incl_length Hnd (fun s _ => in_all_states s)) as Hl.
  simpl in Hl; rewrite length_map in Hl; lia.
Qed.

Lemma find_path_simple_witness :
  find_path init_manager SHOP = Some [mkTransition UNKNOWN HOME_SCREEN
      ["click_template:common/return_home"%string; "wait:1.0"%string;
       "click_template:common/close_button"%string; "wait:0.5"%string;
       "click_template:common/confirm_button"%string; "wait:0.5"%string] 3;
    home_to_shop] /\
  NoDup (UNKNOWN :: [HOME_SCREEN; SHOP]).
Proof.
  split; [reflexivity|].
  exact (proj1 (find_path_simple init_manager SHOP _ eq_refl)).
Defined.

(* ------------------------------------------------------------------ *)
(** * Further properties of the template matcher *)

(** [TemplateMatch.width] and [TemplateMatch.height]. *)
Definition width (m : TemplateMatch) : Z := (fst (bottom_right m) - fst (top_left m))%Z.
Definition height (m : TemplateMatch) : Z := (snd (bottom_right m) - snd (top_left m))%Z.

(** The two loops of [fill_rect], named. *)
Fixpoint fill_cols (x1 y1 x2 y2 y x : Z) (vs : list Q) : list Q :=
  match vs with
  | [] => []
  | v :: vs' =>
      (if (x1 <=? x)%Z && (x <=? x2)%Z && (y1 <=? y)%Z && (y <=? y2)%Z
       then 0 else v) :: fill_cols x1 y1 x2 y2 y (x + 1)%Z vs'
  end.

Fixpoint fill_rows (x1 y1 x2 y2 y : Z) (rs : Surface) : Surface :=
  match rs with
  | [] => []
  | r :: rs' => fill_cols x1 y1 x2 y2 y 0%Z r :: fill_rows x1 y1 x2 y2 (y + 1)%Z rs'
  end.

Definition in_rect (x1 y1 x2 y2 : Z) (l : Z * Z) : bool :=
  (x1 <=? fst l)%Z && (fst l <=? x2)%Z && (y1 <=? snd l)%Z && (snd l <=? y2)%Z.

Lemma fill_rect_rows (x1 y1 x2 y2 : Z) (s : Surface) :
  fill_rect x1 y1 x2 y2 s = fill_rows x1 y1 x2 y2 0 s.
Proof.
  unfold fill_rect.
  match goal with |- ?F 0%Z s = _ =>
    enough (H : forall y, F y s = fill_rows x1 y1 x2 y2 y s) by apply H end.
  induction s as [|r s IH]; intros y; [reflexivity|].
  cbn [fill_rows]; rewrite <- IH; f_equal.
  match goal with |- ?G 0%Z r = _ =>
    enough (H : forall x, G x r = fill_cols x1 y1 x2 y2 y x r) by apply H end.
  induction r as [|v r IHr]; intros x; [reflexivity|].
  cbn [fill_cols]; rewrite <- IHr; reflexivity.
Qed.

Lemma cells_fill_cols (x1 y1 x2 y2 y x : Z) (r : list Q) :
  cells_row y x (fill_cols x1 y1 x2 y2 y x r)
  = map (fun c => (fst c, if in_rect x1 y1 x2 y2 (fst c) then 0 else snd c))
        (cells_row y x r).
Proof.
  revert x; induction r as [|v r IH]; intros x; simpl; [reflexivity|].
  rewrite IH; reflexivity.
Qed.

Lemma cells_fill_rows (x1 y1 x2 y2 y : Z) (rs : Surface) :
  cells_from y (fill_rows x1 y1 x2 y2 y rs)
  = map (fun c => (fst c, if in_rect x1 y1 x2 y2 (fst c) then 0 else snd c))
        (cells_from y rs).
Proof.
  revert y; induction rs as [|r rs IH]; intros y; simpl; [reflexivity|].
  rewrite cells_fill_cols, IH, map_app; reflexivity.
Qed.

(** Masking keeps every cell in place and sets some of them to 0. *)
Lemma cells_fill_rect (x1 y1 x2 y2 : Z) (s : Surface) :
  cells (fill_rect x1 y1 x2 y2 s)
  = map (fun c => (fst c, if in_rect x1 y1 x2 y2 (fst c) then 0 else snd c)) (cells s).
Proof. unfold cells; rewrite fill_rect_rows; apply cells_fill_rows. Qed.

Lemma cells_fill_rect_in (x1 y1 x2 y2 : Z) (s : Surface) l v :
  In (l, v) (cells (fill_rect x1 y1 x2 y2 s)) -> v = 0 \/ In (l, v) (cells s).
Proof.
  rewrite cells_fill_rect; intros H; apply in_map_iff in H as [[l' v'] [E Hin]].
  simpl in E; injection E as <- <-.
  destruct (in_rect x1 y1 x2 y2 l'); [left; reflexivity | right; exact Hin].
Qed.

Lemma max_val_cell (s : Surface) :
  (cells s = [] /\ max_val (minMaxLoc s) = 0) \/
  In (max_loc (minMaxLoc s), max_val (minMaxLoc s)) (cells s).
Proof.
  destruct (cells s) as [|c cs] eqn:E.
  - left; split; [reflexivity|]; unfold minMaxLoc; rewrite E; reflexivity.
  - right; rewrite <- E; apply minMaxLoc_spec; rewrite E; discriminate.
Qed.

(** Masking never raises the best correlation score above the old one, as
    long as that one is not negative. *)
Lemma max_val_fill_rect (x1 y1 x2 y2 : Z) (s : Surface) (b : Q) :
  0 <= b -> max_val (minMaxLoc s) <= b ->
  max_val (minMaxLoc (fill_rect x1 y1 x2 y2 s)) <= b.
Proof.
  intros H0 Hb.
  destruct (max_val_cell (fill_rect x1 y1 x2 y2 s)) as [[_ ->] | Hin]; [exact H0|].
  destruct (cells_fill_rect_in _ _ _ _ _ _ _ Hin) as [-> | Hin']; [exact H0|].
  destruct (minMaxLoc_spec s) as [_ [_ Hall]]; [intros E; rewrite E in Hin'; destruct Hin'|].
  eapply Qle_trans; [apply (Hall _ _ Hin') | exact Hb].
Qed.

Lemma find_many_loop_below (h w : Z) (name : string) (method : MatchMethod)
    (threshold : Q) :
  method <> SQDIFF ->
  forall k s b, 0 <= b -> max_val (minMaxLoc s) <= b ->
  Forall (fun m => confidence m <= b) (find_many_loop h w name method threshold k s).
Proof.
  intros Hm; assert (E : MatchMethod_eqb method SQDIFF = false)
    by (destruct method; [reflexivity | contradiction | reflexivity]).
  induction k as [|k IH]; intros s b H0 Hb; cbn [find_many_loop]; [constructor|].
  rewrite E; destruct (Qltb (max_val (minMaxLoc s)) threshold); [constructor|].
  constructor; [exact Hb|].
  apply IH; [exact H0|]; apply max_val_fill_rect; assumption.
Qed.

(** With a correlation method and a non-negative threshold, [find_template]
    with [multiple=True] lists its matches by non-increasing confidence. *)
Theorem find_many_descending
    (match_template : Image -> Image -> MatchMethod -> option Surface)
    (templates : list (string * Image)) (image : Image) (name : string)
    (method : MatchMethod) (threshold : Q) (max_results : Z) (ms : list TemplateMatch) :
  method <> SQDIFF -> 0 <= threshold ->
  find_template match_template templates image name method threshold true max_results
  = Ok (Many ms) ->
  Sorted (fun a b => confidence b <= confidence a) ms.
Proof.
  intros Hm Ht Hf.
  assert (E : MatchMethod_eqb method SQDIFF = false)
    by (destruct method; [reflexivity | contradiction | reflexivity]).
  assert (Hloop : forall h w k s,
             Sorted (fun a b => confidence b <= confidence a)
                    (find_many_loop h w name method threshold k s)).
  { intros h w k; induction k as [|k IH]; intros s; cbn [find_many_loop]; [constructor|].
    rewrite E; destruct (Qltb (max_val (minMaxLoc s)) threshold) eqn:Es; [constructor|].
    apply Qltb_false in Es.
    constructor; [apply IH|].
    match goal with |- HdRel _ _ (find_many_loop h w name method threshold k ?s') =>
      pose proof (find_many_loop_below h w name method threshold Hm k s'
                    (max_val (minMaxLoc s))) as Hb;
      destruct (find_many_loop h w name method threshold k s') as [|m' rest] end;
      [constructor|].
    constructor; simpl.
    assert (Hf' : Forall (fun m => confidence m <= max_val (minMaxLoc s)) (m' :: rest)).
    { apply Hb; [eapply Qle_trans; eassumption|].
      apply max_val_fill_rect; [eapply Qle_trans; eassumption | apply Qle_refl]. }
    inversion Hf'; assumption. }
  unfold find_template in Hf.
  destruct (template_get templates name) as [tpl|]; [|simpl in Hf; injection Hf as <-; constructor].
  destruct ((img_h image <? img_h tpl)%nat || (img_w image <? img_w tpl)%nat);
    [simpl in Hf; injection Hf as <-; constructor|].
  destruct (match_template image tpl method) as [s|]; [|discriminate].
  injection Hf as <-; apply Hloop.
Qed.

Lemma find_many_descending_witness :
  let img := mkImage 1 18 [] in
  let tpl := mkImage 1 8 [] in
  find_template (fun _ _ _ => Some [[17#20; 0; 0; 1#2; 0; 0; 9#10; 0; 0; 0; 0]])
    [("slot"%string, tpl)] img "slot" EXACT (1#4) true 5
  = Ok (Many [mkMatch (6, 0)%Z (14, 1)%Z (9#10) "slot" EXACT;
              mkMatch (0, 0)%Z (8, 1)%Z (17#20) "slot" EXACT]) /\
  Sorted (fun a b => confidence b <= confidence a)
    [mkMatch (6, 0)%Z (14, 1)%Z (9#10) "slot" EXACT;
     mkMatch (0, 0)%Z (8, 1)%Z (17#20) "slot" EXACT].
Proof.
  intros img tpl.
  assert (H : find_template (fun _ _ _ => Some [[17#20; 0; 0; 1#2; 0; 0; 9#10; 0; 0; 0; 0]])
    [("slot"%string, tpl)] img "slot" EXACT (1#4) true 5
    = Ok (Many [mkMatch (6, 0)%Z (14, 1)%Z (9#10) "slot" EXACT;
                mkMatch (0, 0)%Z (8, 1)%Z (17#20) "slot" EXACT])) by (vm_compute; reflexivity).
  split; [exact H|].
  refine (find_many_descending _ _ img "slot" EXACT (1#4) 5 _ _ _ H); [discriminate|].
  unfold Qle; simpl; lia.
Defined.

(** [result.shape == (rows, cols)]. *)
Definition surface_shape (s : Surface) (rows cols : nat) : Prop :=
  List.length s = rows /\ Forall (fun r => List.length r = cols) s.

Lemma cells_row_bounds (y x0 : Z) (r : list Q) x y' v :
  In ((x, y'), v) (cells_row y x0 r) ->
  y' = y /\ (x0 <= x < x0 + Z.of_nat (List.length r))%Z.
Proof.
  revert x0; induction r as [|u r IH]; intros x0; simpl; [tauto|].
  intros [E | H]; [injection E as -> -> _; lia|].
  destruct (IH _ H); lia.
Qed.

Lemma cells_from_bounds (y0 : Z) (rs : Surface) (cols : nat) x y v :
  Forall (fun r => List.length r = cols) rs ->
  In ((x, y), v) (cells_from y0 rs) ->
  (0 <= x < Z.of_nat cols)%Z /\ (y0 <= y < y0 + Z.of_nat (List.length rs))%Z.
Proof.
  revert y0; induction rs as [|r rs IH]; intros y0 Hf; simpl; [tauto|].
  inversion Hf as [|? ? Hr Hf']; subst.
  intros H; apply in_app_or in H as [H | H].
  - destruct (cells_row_bounds _ _ _ _ _ _ H); lia.
  - destruct (IH _ Hf' H); lia.
Qed.

Lemma cells_bounds (s : Surface) (rows cols : nat) x y v :
  surface_shape s rows cols -> In ((x, y), v) (cells s) ->
  (0 <= x < Z.of_nat cols)%Z /\ (0 <= y < Z.of_nat rows)%Z.
Proof.
  intros [Hl Hf] H; destruct (cells_from_bounds 0 s cols x y v Hf H); subst rows; lia.
Qed.

Lemma cells_nonempty (s : Surface) (rows cols : nat) :
  surface_shape s rows cols -> (1 <= rows)%nat -> (1 <= cols)%nat -> cells s <> [].
Proof.
  intros [Hl Hf] Hr Hc; destruct s as [|r s]; [simpl in Hl; lia|].
  inversion Hf; subst; destruct r as [|v r]; [simpl in Hc; lia|].
  unfold cells; simpl; discriminate.
Qed.

Lemma fill_cols_length (x1 y1 x2 y2 y x : Z) (r : list Q) :
  List.length (fill_cols x1 y1 x2 y2 y x r) = List.length r.
Proof. revert x; induction r; intros x; simpl; [reflexivity | rewrite IHr; reflexivity]. Qed.

Lemma fill_rect_shape (x1 y1 x2 y2 : Z) (s : Surface) (rows cols : nat) :
  surface_shape s rows cols -> surface_shape (fill_rect x1 y1 x2 y2 s) rows cols.
Proof.
  rewrite fill_rect_rows; generalize 0%Z; intros y [Hl Hf]; subst rows.
  revert y; induction s as [|r s IH]; intros y; simpl; [split; [reflexivity | constructor]|].
  inversion Hf as [|? ? Hr Hf']; subst.
  destruct (IH Hf' (y + 1)%Z) as [Hl' Hf''].
  split; [simpl; rewrite Hl'; reflexivity|].
  constructor; [rewrite fill_cols_length; reflexivity | exact Hf''].
Qed.

(** The location [find_template] reports, for either method. *)
Lemma best_loc_in (method : MatchMethod) (s : Surface) :
  cells s <> [] ->
  exists v, In (if MatchMethod_eqb method SQDIFF then min_loc (minMaxLoc s)
                else max_loc (minMaxLoc s), v) (cells s).
Proof.
  intros Hne; destruct (minMaxLoc_spec s Hne) as [H1 [H2 _]].
  destruct (MatchMethod_eqb method SQDIFF); eexists; eassumption.
Qed.

(** A match reported on a surface of [rows] x [cols] cells, for a template of
    [h] x [w] pixels. *)
Definition match_fits (h w : Z) (rows cols : nat) (name : string) (method : MatchMethod)
    (m : TemplateMatch) : Prop :=
  (0 <= fst (top_left m) < Z.of_nat cols)%Z /\ (0 <= snd (top_left m) < Z.of_nat rows)%Z /\
  width m = w /\ height m = h /\ template_name m = name /\ match_method m = method.

Lemma find_many_loop_fits (h w : Z) (name : string) (method : MatchMethod)
    (threshold : Q) (rows cols : nat) :
  (1 <= rows)%nat -> (1 <= cols)%nat ->
  forall k s, surface_shape s rows cols ->
  Forall (match_fits h w rows cols name method)
         (find_many_loop h w name method threshold k s).
Proof.
  intros Hr Hc; induction k as [|k IH]; intros s Hs; cbn [find_many_loop]; [constructor|].
  match goal with |- context [if Qltb ?sc threshold then _ else _] =>
    destruct (Qltb sc threshold) end; [constructor|].
  constructor.
  - destruct (best_loc_in method s (cells_nonempty s rows cols Hs Hr Hc)) as [v Hin].
    destruct (if MatchMethod_eqb method SQDIFF then _ else _) as [x y] eqn:El.
    destruct (cells_bounds s rows cols x y v Hs Hin).
    unfold match_fits, width, height; simpl; repeat split; lia.
  - apply IH, fill_rect_shape, Hs.
Qed.

(** When [cv2.matchTemplate] returns its usual [(H-h+1) x (W-w+1)] surface,
    every match [find_template] reports (single or multiple) lies inside the
    frame, has the template's size, name and method, and meets the
    threshold. *)
Theorem find_template_matches_in_frame
    (match_template : Image -> Image -> MatchMethod -> option Surface)
    (templates : list (string * Image)) (image : Image) (name : string)
    (method : MatchMethod) (threshold : Q) (multiple : bool) (max_results : Z)
    (tpl : Image) (m : TemplateMatch) :
  template_get templates name = Some tpl ->
  (forall s, match_template image tpl method = Some s ->
     surface_shape s (img_h image - img_h tpl + 1) (img_w image - img_w tpl + 1)) ->
  (find_template match_template templates image name method threshold multiple max_results
     = Ok (One (Some m)) \/
   exists ms, find_template match_template templates image name method threshold
                multiple max_results = Ok (Many ms) /\ In m ms) ->
  (0 <= fst (top_left m))%Z /\ (0 <= snd (top_left m))%Z /\
  (fst (bottom_right m) <= Z.of_nat (img_w image))%Z /\
  (snd (bottom_right m) <= Z.of_nat (img_h image))%Z /\
  width m = Z.of_nat (img_w tpl) /\ height m = Z.of_nat (img_h tpl) /\
  template_name m = name /\ match_method m = method /\ threshold <= confidence m.
Proof.
  intros Hget Hshape Hres.
  assert (Hfit : forall rows cols,
    rows = (img_h image - img_h tpl + 1)%nat -> cols = (img_w image - img_w tpl + 1)%nat ->
    (img_h tpl <= img_h image)%nat -> (img_w tpl <= img_w image)%nat ->
    match_fits (Z.of_nat (img_h tpl)) (Z.of_nat (img_w tpl)) rows cols name method m ->
    threshold <= confidence m ->
    (0 <= fst (top_left m))%Z /\ (0 <= snd (top_left m))%Z /\
    (fst (bottom_right m) <= Z.of_nat (img_w image))%Z /\
    (snd (bottom_right m) <= Z.of_nat (img_h image))%Z /\
    width m = Z.of_nat (img_w tpl) /\ height m = Z.of_nat (img_h tpl) /\
    template_name m = name /\ match_method m = method /\ threshold <= confidence m).
  { intros rows cols -> -> Hh Hw [Hx [Hy [Ew [Eh [En Em]]]]] Ht.
    unfold width, height in *; repeat split; try assumption; lia. }
  unfold find_template in Hres; rewrite Hget in Hres.
  destruct ((img_h image <? img_h tpl)%nat || (img_w image <? img_w tpl)%nat) eqn:Esz.
  { destruct multiple; simpl in Hres;
      destruct Hres as [E | [ms [E Hin]]]; try discriminate.
    injection E as <-; destruct Hin. }
  apply orb_false_iff in Esz as [Eh Ew]; apply Nat.ltb_ge in Eh, Ew.
  destruct (match_template image tpl method) as [s|] eqn:Es;
    [|destruct Hres as [E | [ms [E _]]]; discriminate].
  specialize (Hshape s eq_refl).
  assert (Hne : cells s <> []) by (apply (cells_nonempty s _ _ Hshape); lia).
  destruct multiple.
  - destruct Hres as [E | [ms [E Hin]]]; [discriminate|].
    injection E as <-.
    pose proof (find_many_loop_fits (Z.of_nat (img_h tpl)) (Z.of_nat (img_w tpl)) name method
                  threshold (img_h image - img_h tpl + 1) (img_w image - img_w tpl + 1)
                  ltac:(lia) ltac:(lia) (Z.to_nat max_results) s Hshape) as Hf.
    rewrite Forall_forall in Hf.
    destruct (find_many_loop_bounds (Z.of_nat (img_h tpl)) (Z.of_nat (img_w tpl)) name method
                threshold (Z.to_nat max_results) s) as [_ Hth].
    rewrite Forall_forall in Hth.
    apply (Hfit _ _ eq_refl eq_refl Eh Ew (Hf m Hin) (Hth m Hin)).
  - destruct Hres as [E | [ms [E _]]]; [|destruct (Qltb _ threshold); discriminate].
    destruct (Qltb _ threshold) eqn:Et; [discriminate|].
    injection E as <-; apply Qltb_false in Et.
    destruct (best_loc_in method s Hne) as [v Hin].
    destruct (if MatchMethod_eqb method SQDIFF then min_loc (minMaxLoc s)
              else max_loc (minMaxLoc s)) as [x y] eqn:El.
    destruct (cells_bounds s _ _ x y v Hshape Hin).
    apply (Hfit _ _ eq_refl eq_refl Eh Ew); [|exact Et].
    unfold match_fits, width, height; simpl; repeat split; lia.
Qed.

Lemma find_template_matches_in_frame_witness :
  let m := mkMatch (0, 0)%Z (2, 2)%Z 1 "home/shop_icon" EXACT in
  find_template (fun _ _ _ => Some [[1]]) [("home/shop_icon"%string, shop_icon_image)]
    shop_icon_image "home/shop_icon" EXACT (7#10) false 5 = Ok (One (Some m)) /\
  (fst (bottom_right m) <= Z.of_nat (img_w shop_icon_image))%Z /\
  width m = Z.of_nat (img_w shop_icon_image).
Proof.
  intros m.
  assert (Hf : find_template (fun _ _ _ => Some [[1]])
                 [("home/shop_icon"%string, shop_icon_image)]
                 shop_icon_image "home/shop_icon" EXACT (7#10) false 5 = Ok (One (Some m)))
    by (vm_compute; reflexivity).
  destruct (find_template_matches_in_frame (fun _ _ _ => Some [[1]])
              [("home/shop_icon"%string, shop_icon_image)] shop_icon_image "home/shop_icon"
              EXACT (7#10) false 5 shop_icon_image m eq_refl
              ltac:(intros s E; injection E as <-; split; [reflexivity | repeat constructor])
              (or_introl Hf)) as [_ [_ [Hx [_ [Hw _]]]]].
  split; [exact Hf | split; assumption].
Defined.

(** [TemplateMatch.center] is the top-left corner moved by half the width and
    half the height (rounded down), so it lies inside the match's box. *)
Theorem center_in_box (m : TemplateMatch) :
  (0 <= width m)%Z -> (0 <= height m)%Z ->
  fst (center m) = (fst (top_left m) + width m / 2)%Z /\
  snd (center m) = (snd (top_left m) + height m / 2)%Z /\
  (fst (top_left m) <= fst (center m) <= fst (bottom_right m))%Z /\
  (snd (top_left m) <= snd (center m) <= snd (bottom_right m))%Z.
Proof.
  unfold center, width, height; simpl.
  destruct (top_left m) as [x1 y1], (bottom_right m) as [x2 y2]; simpl; intros Hw Hh.
  assert (Ex : ((x1 + x2) / 2 = x1 + (x2 - x1) / 2)%Z).
  { replace (x1 + x2)%Z with ((x2 - x1) + x1 * 2)%Z by lia.
    rewrite Z.div_add by lia; lia. }
  assert (Ey : ((y1 + y2) / 2 = y1 + (y2 - y1) / 2)%Z).
  { replace (y1 + y2)%Z with ((y2 - y1) + y1 * 2)%Z by lia.
    rewrite Z.div_add by lia; lia. }
  rewrite Ex, Ey.
  pose proof (Z.div_pos (x2 - x1) 2 Hw ltac:(lia)).
  pose proof (Z.div_pos (y2 - y1) 2 Hh ltac:(lia)).
  pose proof (Z.div_le_upper_bound (x2 - x1) 2 (x2 - x1) ltac:(lia) ltac:(lia)).
  pose proof (Z.div_le_upper_bound (y2 - y1) 2 (y2 - y1) ltac:(lia) ltac:(lia)).
  repeat split; lia.
Qed.

Lemma center_in_box_witness :
  center (mkMatch (6, 0)%Z (14, 1)%Z (9#10) "slot" EXACT) = (10, 0)%Z /\
  (6 <= fst (center (mkMatch (6, 0)%Z (14, 1)%Z (9#10) "slot" EXACT)) <= 14)%Z.
Proof.
  split; [reflexivity|].
  exact (proj1 (proj2 (proj2 (center_in_box (mkMatch (6, 0)%Z (14, 1)%Z (9#10) "slot" EXACT)
           ltac:(unfold width; simpl; lia) ltac:(unfold height; simpl; lia))))).
Defined.

(* ------------------------------------------------------------------ *)
(** ** template.py : [find_all_templates]; detection.py : [get_visible_ui_elements] *)

(** [d[k] = v] on a dict with string keys. *)
Definition str_set {V : Type} (d : list (string * V)) (k : string) (v : V)
  : list (string * V) :=
  if existsb (fun e => String.eqb (fst e) k) d
  then map (fun e => if String.eqb (fst e) k then (k, v) else e) d
  else d ++ [(k, v)].

Section FindAll.

Variable match_template : Image -> Image -> MatchMethod -> option Surface.
Variable templates : list (string * Image).

(** [for template_name in self.templates: ...]; an exception raised by
    [find_template] leaves the loop. *)
Fixpoint find_all_loop (image : Image) (method : MatchMethod) (threshold : Q)
    (max_results_per_template : Z) (names : list string)
    (results : list (string * list TemplateMatch))
  : Result (list (string * list TemplateMatch)) :=
  match names with
  | [] => Ok results
  | template_name :: names' =>
      match find_template match_template templates image template_name method threshold
              true max_results_per_template with
      | Raise e => Raise e
      | Ok (Many ((_ :: _) as matches)) =>
          find_all_loop image method threshold max_results_per_template names'
                        (str_set results template_name matches)
      | Ok _ =>
          find_all_loop image method threshold max_results_per_template names' results
      end
  end.

Definition find_all_templates (image : Image) (method : MatchMethod) (threshold : Q)
    (max_results_per_template : Z) : Result (list (string * list TemplateMatch)) :=
  find_all_loop image method threshold max_results_per_template (map fst templates) [].

(** [StateDetector.get_visible_ui_elements(screen_image, threshold)]. *)
Definition get_visible_ui_elements (image : Image) (threshold : Q)
  : Result (list (string * list TemplateMatch)) :=
  find_all_templates image EXACT threshold 3.

End FindAll.

Lemma find_many_loop_labels (h w : Z) (name : string) (method : MatchMethod)
    (threshold : Q) : forall k s,
  Forall (fun m => template_name m = name /\ match_method m = method)
         (find_many_loop h w name method threshold k s).
Proof.
  induction k as [|k IH]; intros s; cbn [find_many_loop]; [constructor|].
  match goal with |- context [if Qltb ?sc threshold then _ else _] =>
    destruct (Qltb sc threshold) end; [constructor|].
  constructor; [split; reflexivity | apply IH].
Qed.

Lemma find_template_many_spec
    (match_template : Image -> Image -> MatchMethod -> option Surface)
    (templates : list (string * Image)) (image : Image) (name : string)
    (method : MatchMethod) (threshold : Q) (max_results : Z) (ms : list TemplateMatch) :
  find_template match_template templates image name method threshold true max_results
  = Ok (Many ms) ->
  (List.length ms <= Z.to_nat max_results)%nat /\
  Forall (fun m => threshold <= confidence m /\ template_name m = name /\
                   match_method m = method) ms.
Proof.
  unfold find_template; intros Hf.
  destruct (template_get templates name) as [tpl|];
    [|simpl in Hf; injection Hf as <-; split; [simpl; lia | constructor]].
  destruct (_ || _); [simpl in Hf; injection Hf as <-; split; [simpl; lia | constructor]|].
  destruct (match_template image tpl method) as [s|]; [|discriminate].
  injection Hf as <-.
  match goal with |- context [find_many_loop ?h ?w _ _ _ ?k _] =>
    destruct (find_many_loop_bounds h w name method threshold k s) as [H1 H2];
    pose proof (find_many_loop_labels h w name method threshold k s) as H3 end.
  split; [exact H1|].
  rewrite Forall_forall in *; intros m Hm.
  destruct (H3 m Hm); split; [apply H2, Hm | split; assumption].
Qed.

Lemma str_set_keys {V : Type} (d : list (string * V)) k v :
  NoDup (map fst d) -> NoDup (map fst (str_set d k v)).
Proof.
  unfold str_set; intros Hnd.
  destruct (existsb (fun e => String.eqb (fst e) k) d) eqn:E.
  - rewrite map_map.
    replace (map (fun x => fst (if String.eqb (fst x) k then (k, v) else x)) d)
      with (map fst d); [exact Hnd|].
    apply map_ext; intros [a b]; simpl.
    destruct (String.eqb a k) eqn:Ea; [apply String.eqb_eq in Ea|]; auto.
  - rewrite map_app; simpl.
    apply NoDup_app; [exact Hnd | repeat constructor; simpl; tauto |].
    intros x Hx [Ex | []]; subst x.
    apply in_map_iff in Hx as [[a b] [Ha Hin]]; simpl in Ha; subst a.
    assert (existsb (fun e => String.eqb (fst e) k) d = true) as C
      by (apply existsb_exists; exists (k, b); split; [exact Hin | apply String.eqb_refl]).
    congruence.
Qed.

Lemma str_set_in {V : Type} (d : list (string * V)) k v n x :
  In (n, x) (str_set d k v) -> (n, x) = (k, v) \/ In (n, x) d.
Proof.
  unfold str_set; destruct (existsb _ d).
  - intros Hin; apply in_map_iff in Hin as [[a b] [E Hin]]; simpl in E.
    destruct (String.eqb a k); [left | right; rewrite <- E]; congruence.
  - intros Hin; apply in_app_or in Hin as [Hin | [E | []]]; [right | left]; auto.
Qed.

Lemma find_all_loop_spec match_template templates image method threshold max_per :
  forall names acc r,
  find_all_loop match_template templates image method threshold max_per names acc = Ok r ->
  NoDup (map fst acc) ->
  NoDup (map fst r) /\
  forall n ms, In (n, ms) r ->
    In (n, ms) acc \/
    (In n names /\ ms <> [] /\ (List.length ms <= Z.to_nat max_per)%nat /\
     Forall (fun m => threshold <= confidence m /\ template_name m = n /\
                      match_method m = method) ms).
Proof.
  induction names as [|nm names IH]; intros acc r Hl Hnd; simpl in Hl.
  - injection Hl as <-; split; [exact Hnd | intros; left; assumption].
  - destruct (find_template match_template templates image nm method threshold true max_per)
      as [[o | [|m0 ms0]] | e] eqn:Ef; try discriminate.
    + destruct (IH acc r Hl Hnd) as [H1 H2].
      split; [exact H1|].
      intros n ms Hin; destruct (H2 n ms Hin) as [? | (? & ?)]; [left | right]; auto with datatypes.
    + destruct (IH acc r Hl Hnd) as [H1 H2].
      split; [exact H1|].
      intros n ms Hin; destruct (H2 n ms Hin) as [? | (? & ?)]; [left | right]; auto with datatypes.
    + destruct (IH _ r Hl (str_set_keys acc nm _ Hnd))
        as [H1 H2].
      split; [exact H1|].
      intros n ms Hin; destruct (H2 n ms Hin) as [Ha | (? & ?)];
        [| right; split; [right|]; assumption].
      apply str_set_in in Ha as [E | Ha]; [| left; exact Ha].
      injection E as -> ->; right.
      destruct (find_template_many_spec _ _ _ _ _ _ _ _ Ef).
      split; [left; reflexivity | split; [congruence | split; assumption]].
Qed.

(** [TemplateMatcher.find_all_templates]: when it returns (no exception from
    [find_template]), the result holds each template name at most once, only
    names of loaded templates, and only with a non-empty list of at most
    [max_results_per_template] matches, each at or above the threshold and
    labelled with that template's name and the requested method. *)
Theorem find_all_templates_spec
    (match_template : Image -> Image -> MatchMethod -> option Surface)
    (templates : list (string * Image)) (image : Image) (method : MatchMethod)
    (threshold : Q) (max_per : Z) (r : list (string * list TemplateMatch)) :
  find_all_templates match_template templates image method threshold max_per = Ok r ->
  NoDup (map fst r) /\
  forall n ms, In (n, ms) r ->
    In n (map fst templates) /\ ms <> [] /\
    (List.length ms <= Z.to_nat max_per)%nat /\
    Forall (fun m => threshold <= confidence m /\ template_name m = n /\
                     match_method m = method) ms.
Proof.
  unfold find_all_templates; intros Hf.
  destruct (find_all_loop_spec _ _ _ _ _ _ _ _ _ Hf (NoDup_nil _)) as [H1 H2].
  split; [exact H1|].
  intros n ms Hin; destruct (H2 n ms Hin) as [[] | H]; exact H.
Qed.

Definition big_banner_image : Image :=
  mkImage 3 3 [[(0, 0, 0); (0, 0, 0); (0, 0, 0)]; [(0, 0, 0); (0, 0, 0); (0, 0, 0)];
               [(0, 0, 0); (0, 0, 0); (0, 0, 0)]]%Z.

Lemma find_all_templates_spec_witness :
  let templates := [("home/shop_icon"%string, shop_icon_image);
                    ("battle/banner"%string, big_banner_image)] in
  let r := [("home/shop_icon"%string, [mkMatch (0, 0)%Z (2, 2)%Z 1 "home/shop_icon" EXACT])] in
  find_all_templates (fun _ _ _ => Some [[1]]) templates shop_icon_image EXACT (4#5) 3
  = Ok r /\ NoDup (map fst r).
Proof.
  intros templates r.
  assert (Hf : find_all_templates (fun _ _ _ => Some [[1]]) templates shop_icon_image
                 EXACT (4#5) 3 = Ok r) by (vm_compute; reflexivity).
  split; [exact Hf|].
  exact (proj1 (find_all_templates_spec _ _ _ _ _ _ _ Hf)).
Defined.

(** [StateDetector.get_visible_ui_elements] reports, per visible template, one
    to three [EXACT] matches, each at or above the given threshold. *)
Theorem get_visible_ui_elements_spec
    (match_template : Image -> Image -> MatchMethod -> option Surface)
    (templates : list (string * Image)) (screen_image : Image) (threshold : Q)
    (r : list (string * list TemplateMatch)) :
  get_visible_ui_elements match_template templates screen_image threshold = Ok r ->
  forall n ms, In (n, ms) r ->
    (1 <= List.length ms <= 3)%nat /\
    Forall (fun m => threshold <= confidence m /\ match_method m = EXACT) ms.
Proof.
  unfold get_visible_ui_elements; intros Hf n ms Hin.
  destruct (find_all_templates_spec _ _ _ _ _ _ _ Hf) as [_ H].
  destruct (H n ms Hin) as (_ & Hne & Hlen & Hall).
  split.
  - destruct ms; [congruence|]; simpl in *; lia.
  - eapply Forall_impl; [|exact Hall]; simpl; tauto.
Qed.

Lemma get_visible_ui_elements_spec_witness :
  let r := [("home/shop_icon"%string, [mkMatch (0, 0)%Z (2, 2)%Z 1 "home/shop_icon" EXACT])] in
  get_visible_ui_elements (fun _ _ _ => Some [[1]]) [("home/shop_icon"%string, shop_icon_image)]
    shop_icon_image (7#10) = Ok r /\
  (1 <= 1 <= 3)%nat.
Proof.
  intros r.
  assert (Hf : get_visible_ui_elements (fun _ _ _ => Some [[1]])
                 [("home/shop_icon"%string, shop_icon_image)] shop_icon_image (7#10) = Ok r)
    by (vm_compute; reflexivity).
  split; [exact Hf|].
  exact (proj1 (get_visible_ui_elements_spec _ _ _ _ _ Hf "home/shop_icon" _ (or_introl eq_refl))).
Defined.

(* ------------------------------------------------------------------ *)
(** ** detection.py : what [detect_state] can report, without side conditions *)

Lemma conf_set_in (d : list (GameState * Q)) s c s' c' :
  In (s', c') (conf_set d s c) -> (s', c') = (s, c) \/ In (s', c') d.
Proof.
  unfold conf_set; destruct (existsb _ d).
  - intros Hin; apply in_map_iff in Hin as [[a b] [E Hin]]; simpl in E.
    destruct (GameState_eqb a s); [left | right; rewrite <- E]; congruence.
  - intros Hin; apply in_app_or in Hin as [Hin | [E | []]]; [right | left]; auto.
Qed.

Lemma found_confidences_nonempty (find : string -> Q -> option TemplateMatch)
    (names : list string) (th : Q) :
  (0 < List.length (found_confidences find names th))%nat ->
  exists n, In n names /\ find n th <> None.
Proof.
  induction names as [|a names IH]; simpl; [lia|].
  destruct (find a th) eqn:E.
  - intros _; exists a; split; [left; reflexivity | congruence].
  - intros H; destruct (IH H) as [n [Hn Hf]]; exists n; split; [right|]; assumption.
Qed.

Lemma detect_step_in (find : string -> Q -> option TemplateMatch) acc s d s' c' :
  In (s', c') (detect_step find acc (s, d)) ->
  In (s', c') acc \/
  (s' = s /\ exists n, In n (required_templates d) /\ find n (confidence_threshold d) <> None).
Proof.
  unfold detect_step; rewrite count_matches_spec.
  destruct (0 <? List.length (found_confidences find (required_templates d)
                                 (confidence_threshold d)))%nat eqn:Hk;
    [|left; assumption].
  apply Nat.ltb_lt, found_confidences_nonempty in Hk.
  destruct (_ || _); [|left; assumption].
  intros Hin; apply conf_set_in in Hin as [E | Hin]; [right | left; exact Hin].
  injection E as -> _; split; [reflexivity | exact Hk].
Qed.

Lemma state_confidences_from (find : string -> Q -> option TemplateMatch) :
  forall defs acc s c,
  In (s, c) (fold_left (detect_step find) defs acc) ->
  In (s, c) acc \/
  exists d, In (s, d) defs /\
    exists n, In n (required_templates d) /\ find n (confidence_threshold d) <> None.
Proof.
  induction defs as [|[s0 d0] defs IH]; intros acc s c Hin; cbn [fold_left] in Hin;
    [left; exact Hin|].
  destruct (IH _ s c Hin) as [H | [d [Hd Hn]]].
  - apply detect_step_in in H as [H | [-> Hn]]; [left; exact H|].
    right; exists d0; split; [left; reflexivity | exact Hn].
  - right; exists d; split; [right; exact Hd | exact Hn].
Qed.

(** [StateDetector.detect_state] reports either [UNKNOWN] or a state that has
    a registered rule of which at least one required template was found at
    that rule's threshold; this holds for any rules, duplicated or empty. *)
Theorem detect_state_registered (find : string -> Q -> option TemplateMatch)
    (defs : list (GameState * StateDefinition)) :
  detect_state find defs = UNKNOWN \/
  exists d, In (detect_state find defs, d) defs /\
    exists n, In n (required_templates d) /\ find n (confidence_threshold d) <> None.
Proof.
  unfold detect_state.
  destruct (state_confidences find defs) as [|e l] eqn:E; [left; reflexivity|].
  destruct (py_max_conf_spec (e :: l) ltac:(discriminate))
    as [pre [[s c] [post [Hm [Hl _]]]]].
  rewrite Hm; right.
  assert (Hin : In (s, c) (state_confidences find defs))
    by (rewrite E, Hl; apply in_or_app; right; left; reflexivity).
  destruct (state_confidences_from find defs [] s c Hin) as [[] | H]; exact H.
Qed.

(** [StateDetector.register_state_definition] is dict assignment: the state
    then has exactly the new rule, other states keep their rules, and the
    order of the states (the order [detect_state] scans them and breaks ties
    in) is unchanged when the state was already registered, and extended by
    it at the end otherwise. *)
Theorem register_state_definition_spec (defs : list (GameState * StateDefinition))
    (state : GameState) (d : StateDefinition) :
  let defs' := register_state_definition defs state d in
  (In state (map fst defs) -> map fst defs' = map fst defs) /\
  (~ In state (map fst defs) -> map fst defs' = map fst defs ++ [state]) /\
  In (state, d) defs' /\
  (forall d', In (state, d') defs' -> d' = d) /\
  (forall s d', s <> state -> (In (s, d') defs' <-> In (s, d') defs)).
Proof.
  intros defs'; unfold defs', register_state_definition.
  destruct (existsb (fun e => GameState_eqb (fst e) state) defs) eqn:E.
  - apply existsb_exists in E as [[s0 d0] [Hin0 Heq0]]; simpl in Heq0.
    apply GameState_eqb_spec in Heq0; subst s0.
    split; [|split; [intros Hn; exfalso; apply Hn, (in_map fst _ _ Hin0)|split; [|split]]].
    + intros _; rewrite map_map; apply map_ext; intros [a b]; simpl.
      destruct (GameState_eqb a state) eqn:Ea; [apply GameState_eqb_spec in Ea|]; auto.
    + apply in_map_iff; exists (state, d0); split; [|exact Hin0].
      simpl; rewrite GameState_eqb_refl; reflexivity.
    + intros d' Hin; apply in_map_iff in Hin as [[a b] [Ea Hin]]; simpl in Ea.
      destruct (GameState_eqb a state) eqn:Eb; [congruence|].
      injection Ea as -> ->; rewrite GameState_eqb_refl in Eb; discriminate.
    + intros s d' Hs; split.
      * intros Hin; apply in_map_iff in Hin as [[a b] [Ea Hin]]; simpl in Ea.
        destruct (GameState_eqb a state); [congruence | rewrite <- Ea; exact Hin].
      * intros Hin; apply in_map_iff; exists (s, d'); split; [|exact Hin]; simpl.
        destruct (GameState_eqb s state) eqn:Eb; [apply GameState_eqb_spec in Eb; congruence|].
        reflexivity.
  - assert (Hn : ~ In state (map fst defs)).
    { intros Hin; apply in_map_iff in Hin as [[a b] [Ea Hin]]; simpl in Ea; subst a.
      assert (existsb (fun e => GameState_eqb (fst e) state) defs = true)
        by (apply existsb_exists; exists (state, b); split;
            [exact Hin | apply GameState_eqb_refl]).
      congruence. }
    split; [intros H; contradiction|split; [intros _; rewrite map_app; reflexivity|]].
    split; [apply in_or_app; right; left; reflexivity|split].
    + intros d' Hin; apply in_app_or in Hin as [Hin | [Ea | []]]; [|congruence].
      exfalso; apply Hn, (in_map fst _ _ Hin).
    + intros s d' Hs; split.
      * intros Hin; apply in_app_or in Hin as [Hin | [Ea | []]]; [exact Hin | congruence].
      * intros Hin; apply in_or_app; left; exact Hin.
Qed.

(* ------------------------------------------------------------------ *)
(** ** main.py : [navigate_to] when it succeeds *)

Lemma run_path_true_last (screen : nat -> Image) (detect : Image -> GameState)
    (match_template : Image -> Image -> MatchMethod -> option Surface)
    (templates : list (string * Image))
    (device_raises : World -> Input.IEvent -> option string)
    (device_time : World -> Input.IEvent -> Q) (w w' : World) (q : list StateTransition)
    (e : StateTransition) :
  run_path screen detect match_template templates device_raises device_time w (q ++ [e]) = (true, w') ->
  current_state (mgr w') = to_state e.
Proof.
  rewrite run_path_app.
  destruct (run_path screen detect match_template templates device_raises device_time w q) as [b wq].
  destruct b; [|discriminate].
  simpl.
  pose proof (automation_update_state_current screen detect
                (sleep (execute_actions screen match_template templates device_raises device_time wq
                          (action_sequence e)) (expected_duration e))) as Hc.
  unfold perform_transition.
  destruct (automation_update_state screen detect _) as [s w3]; simpl in Hc.
  destruct (GameState_eqb s (to_state e)) eqn:E; [|discriminate].
  apply GameState_eqb_spec in E.
  intros H; injection H as <-; congruence.
Qed.

(** [NikkeAutomation.navigate_to] returns [True] only when the state manager
    ends on the target: either the first detection already was the target, or
    the detection after the last hop of the path matched that hop's
    destination, which is the target. *)
Theorem navigate_to_true_at_target (screen : nat -> Image) (detect : Image -> GameState)
    (match_template : Image -> Image -> MatchMethod -> option Surface)
    (templates : list (string * Image))
    (device_raises : World -> Input.IEvent -> option string)
    (device_time : World -> Input.IEvent -> Q) (w w' : World) (target : GameState) :
  navigate_to screen detect match_template templates device_raises device_time w target = (true, w') ->
  current_state (mgr w') = target.
Proof.
  unfold navigate_to.
  pose proof (automation_update_state_current screen detect w) as Hc.
  destruct (automation_update_state screen detect w) as [cur w1]; simpl in Hc.
  destruct (GameState_eqb cur target) eqn:E.
  - apply GameState_eqb_spec in E; intros H; injection H as <-; congruence.
  - destruct (find_path_cases (mgr w1) target) as [[Hcur _] | [_ Hp]];
      [apply GameState_eqb_spec in Hcur; congruence|].
    destruct (find_path (mgr w1) target) as [p|]; [|discriminate].
    destruct p as [|t l] eqn:Ep; [discriminate|].
    rewrite <- Ep in *.
    destruct (exists_last (l := p) ltac:(rewrite Ep; discriminate)) as [q [e Eq]].
    rewrite Eq in Hp |- *; intros Hr.
    rewrite (run_path_true_last _ _ _ _ _ _ _ _ _ _ Hr).
    destruct Hp as [Hpath _].
    symmetry; exact (proj1 (is_path_end _ _ _ _ _ Hpath)).
Qed.

(** A capture sequence whose first frame shows the home screen and whose
    later frames show the shop. *)
Definition home_then_shop_screen (n : nat) : Image := mkImage n 0 [].

Definition home_then_shop_detect (img : Image) : GameState :=
  if (img_h img =? 0)%nat then HOME_SCREEN else SHOP.

Lemma navigate_to_true_at_target_witness :
  fst (navigate_to home_then_shop_screen home_then_shop_detect (fun _ _ _ => None) [] (fun _ _ => None) (fun _ _ => 0)
         nav_world0 SHOP) = true /\
  current_state (mgr (snd (navigate_to home_then_shop_screen home_then_shop_detect
                             (fun _ _ _ => None) [] (fun _ _ => None) (fun _ _ => 0) nav_world0 SHOP))) = SHOP.
Proof.
  assert (Hb : fst (navigate_to home_then_shop_screen home_then_shop_detect
                      (fun _ _ _ => None) [] (fun _ _ => None) (fun _ _ => 0) nav_world0 SHOP) = true)
    by (vm_compute; reflexivity).
  split; [exact Hb|].
  destruct (navigate_to home_then_shop_screen home_then_shop_detect (fun _ _ _ => None) [] (fun _ _ => None) (fun _ _ => 0)
              nav_world0 SHOP) as [b w'] eqn:E.
  simpl in Hb; subst b; simpl.
  exact (navigate_to_true_at_target home_then_shop_screen home_then_shop_detect
           (fun _ _ _ => None) [] (fun _ _ => None) (fun _ _ => 0) nav_world0 w' SHOP E).
Defined.

(** When the first detection already is the target, [navigate_to] returns
    [True] after that single capture: no path search is acted on, no action
    is executed and no [time.sleep] happens. *)
Theorem navigate_to_already_there (screen : nat -> Image) (detect : Image -> GameState)
    (match_template : Image -> Image -> MatchMethod -> option Surface)
    (templates : list (string * Image))
    (device_raises : World -> Input.IEvent -> option string)
    (device_time : World -> Input.IEvent -> Q) (w : World) (target : GameState) :
  detect (screen (captures w)) = target ->
  exists w1,
    navigate_to screen detect match_template templates device_raises device_time w target = (true, w1) /\
    events w1 = events w ++ [Captured (captures w)] /\
    clock w1 = clock w /\ captures w1 = S (captures w) /\
    current_state (mgr w1) = target.
Proof.
  intros Hd.
  pose proof (automation_update_state_current screen detect w) as Hc.
  unfold navigate_to.
  destruct (automation_update_state screen detect w) as [cur w1] eqn:Eu; simpl in Hc.
  assert (cur = target /\ events w1 = events w ++ [Captured (captures w)] /\
          clock w1 = clock w /\ captures w1 = S (captures w)) as (-> & H1 & H2 & H3).
  { unfold automation_update_state, capture in Eu; simpl in Eu.
    destruct (update_state _ _ _) as [b m]; injection Eu as <- <-; simpl.
    repeat split; [exact Hd]. }
  rewrite GameState_eqb_refl.
  exists w1; repeat split; assumption.
Qed.

Lemma navigate_to_already_there_witness :
  stuck_on_home (shop_icon_image) = HOME_SCREEN /\
  exists w1,
    navigate_to (fun _ => shop_icon_image) stuck_on_home (fun _ _ _ => None) [] (fun _ _ => None) (fun _ _ => 0)
      nav_world0 HOME_SCREEN = (true, w1) /\
    events w1 = [Captured 0] /\ clock w1 = 0.
Proof.
  split; [reflexivity|].
  destruct (navigate_to_already_there (fun _ => shop_icon_image) stuck_on_home
              (fun _ _ _ => None) [] (fun _ _ => None) (fun _ _ => 0) nav_world0 HOME_SCREEN eq_refl)
    as [w1 (H0 & H1 & H2 & _)].
  exists w1; split; [exact H0 | split; [exact H1 | exact H2]].
Defined.

(* ------------------------------------------------------------------ *)
(** ** main.py : the action loop of [navigate_to] *)

Definition is_capture (e : Event) : bool :=
  match e with Captured _ => true | _ => false end.

Definition is_device (e : Event) : bool :=
  match e with Device _ => true | _ => false end.

(** A [pyautogui.click] call. *)
Definition is_click (e : Event) : bool :=
  match e with Device (Input.MouseClick _ _ _ _) => true | _ => false end.

Definition count {A : Type} (f : A -> bool) (l : list A) : nat := List.length (filter f l).

Lemma count_app {A : Type} (f : A -> bool) (l1 l2 : list A) :
  count f (l1 ++ l2) = (count f l1 + count f l2)%nat.
Proof. unfold count; rewrite filter_app, length_app; reflexivity. Qed.

Lemma count_cons {A : Type} (f : A -> bool) (x : A) (l : list A) :
  count f (x :: l) = ((if f x then 1 else 0) + count f l)%nat.
Proof. unfold count; simpl; destruct (f x); reflexivity. Qed.

Lemma count_click_device (l : list Event) : (count is_click l <= count is_device l)%nat.
Proof.
  induction l as [|e l IH]; [apply le_n|].
  rewrite !count_cons; destruct e as [| [] | |]; simpl; lia.
Qed.

(** The device calls that ran are a prefix of those requested, all of them
    when none raised; the manager and the captures are untouched. *)
Lemma run_device_effect (device_raises : World -> Input.IEvent -> option string)
    (device_time : World -> Input.IEvent -> Q) :
  forall calls w r w2,
  run_device device_raises device_time w calls = (r, w2) ->
  mgr w2 = mgr w /\ captures w2 = captures w /\
  exists pre post, calls = pre ++ post /\ events w2 = events w ++ map Device pre /\
    (r = None -> post = []).
Proof.
  induction calls as [|c cs IH]; intros w r w2 H; simpl in H.
  - injection H as <- <-; split; [reflexivity | split; [reflexivity|]].
    exists [], []; simpl; rewrite app_nil_r; repeat split; reflexivity.
  - destruct (device_raises w c) as [e|].
    + injection H as <- <-; split; [reflexivity | split; [reflexivity|]].
      exists [], (c :: cs); simpl; rewrite app_nil_r; repeat split; discriminate.
    + destruct (IH _ _ _ H) as (Hm & Hc & pre & post & Ec & Ee & Hr); simpl in *.
      split; [exact Hm | split; [exact Hc|]].
      exists (c :: pre), post; split; [rewrite Ec; reflexivity|].
      split; [rewrite Ee, <- app_assoc; reflexivity | exact Hr].
Qed.

Ltac warn_case es :=
  split; [reflexivity | split; [reflexivity|]]; exists es;
  split; [simpl; rewrite <- app_assoc; reflexivity|];
  unfold count; simpl; repeat split; try lia; intros H; first [discriminate H | split; reflexivity].

Lemma execute_action_effect (screen : nat -> Image)
    (match_template : Image -> Image -> MatchMethod -> option Surface)
    (templates : list (string * Image))
    (device_raises : World -> Input.IEvent -> option string)
    (device_time : World -> Input.IEvent -> Q) (w : World) (a : string) :
  let '(ok, w1) := execute_action screen match_template templates device_raises device_time w a in
  mgr w1 = mgr w /\ captures w1 = S (captures w) /\
  exists es, events w1 = events w ++ Captured (captures w) :: es /\
    count is_capture es = 0%nat /\
    (count is_click es <= 1)%nat /\
    (ok = true -> count is_click es = 1%nat) /\
    (String.prefix "click_" a = false -> clock w1 = clock w /\ count is_device es = 0%nat).
Proof.
  unfold execute_action, capture, emit; cbv beta iota.
  set (w1 := mkWorld (mgr w) (clock w) (S (captures w)) (events w ++ [Captured (captures w)])).
  destruct (String.prefix "click_" a) eqn:Ep;
    [destruct (find_template _ _ _ _ _ _ _ _) as [[[m|] | ms] | e]|].
  - destruct (run_device device_raises device_time w1 (click_template m)) as [r w2] eqn:Er.
    destruct (run_device_effect _ _ _ _ _ _ Er) as (Hm & Hc & pre & post & Ec & Ee & Hr).
    assert (Hk : (count is_click (map Device pre) + count is_click (map Device post) = 1)%nat)
      by (rewrite <- count_app, <- map_app, <- Ec; reflexivity).
    assert (Hcap : count is_capture (map Device pre) = 0%nat)
      by (unfold count; clear; induction pre; simpl; auto).
    destruct r as [e|].
    + simpl; split; [exact Hm | split; [exact Hc|]].
      exists (map Device pre ++ [Warned ActionError a]).
      rewrite Ee; simpl; rewrite <- !app_assoc; simpl.
      split; [reflexivity|].
      rewrite !count_app, Hcap.
      split; [reflexivity|].
      split; [change (count is_click [Warned ActionError a]) with 0%nat; lia|].
      split; intros H; discriminate H.
    + split; [exact Hm | split; [exact Hc|]].
      exists (map Device pre).
      rewrite Ee; simpl; rewrite <- app_assoc; simpl.
      rewrite (Hr eq_refl) in Hk; change (count is_click (map Device [])) with 0%nat in Hk.
      split; [reflexivity | split; [exact Hcap|]].
      split; [lia | split; [intros _; lia | intros H; discriminate H]].
  - warn_case [Warned TemplateNotFound a].
  - warn_case [Warned TemplateNotFound a].
  - warn_case [Warned ActionError a].
  - warn_case [Warned UnknownAction a].
Qed.

(** [for action_name in transition.action_sequence]: every action is tried,
    whatever happened to the earlier ones, and takes exactly one capture; the
    loop leaves the state manager alone; it makes at most one
    [pyautogui.click] per action named [click_...]; and when no action is
    named [click_...] it makes no device call at all, so no time passes. *)
Theorem execute_actions_effects (screen : nat -> Image)
    (match_template : Image -> Image -> MatchMethod -> option Surface)
    (templates : list (string * Image))
    (device_raises : World -> Input.IEvent -> option string)
    (device_time : World -> Input.IEvent -> Q) (actions : list string) (w : World) :
  let w' := execute_actions screen match_template templates device_raises device_time w actions in
  mgr w' = mgr w /\
  captures w' = (captures w + List.length actions)%nat /\
  exists es, events w' = events w ++ es /\
    count is_capture es = List.length actions /\
    (count is_click es <= count (String.prefix "click_") actions)%nat /\
    (count (String.prefix "click_") actions = 0%nat ->
     clock w' = clock w /\ count is_device es = 0%nat).
Proof.
  unfold execute_actions; revert w.
  induction actions as [|a actions IH]; intros w; cbn [fold_left].
  - split; [reflexivity | split; [simpl; lia|]].
    exists []; rewrite app_nil_r; repeat split; reflexivity.
  - pose proof (execute_action_effect screen match_template templates device_raises
                  device_time w a) as Ha.
    destruct (execute_action screen match_template templates device_raises device_time w a)
      as [ok w1]; simpl.
    destruct Ha as (Hm & Hn & ev & He & Hcap & Hcl & _ & Hno).
    destruct (IH w1) as (Hm' & Hn' & es & He' & Hcap' & Hcl' & Hno').
    split; [congruence | split; [rewrite Hn', Hn; simpl; lia|]].
    exists (Captured (captures w) :: ev ++ es).
    split; [rewrite He', He, <- app_assoc; reflexivity|].
    rewrite !count_cons, !count_app; simpl.
    split; [rewrite Hcap, Hcap'; reflexivity|].
    destruct (String.prefix "click_" a) eqn:Ep; simpl.
    + split; [lia | intros H; lia].
    + destruct (Hno eq_refl) as [Hc1 Hd1].
      pose proof (count_click_device ev) as Hcd.
      split; [lia|].
      intros H; destruct (Hno' H) as [Hc2 Hd2].
      split; [congruence | lia].
Qed.

Module InputFacts.
Import Input.

(** Running two lists of actions one after the other is running their
    concatenation: [perform_action_sequence] stops at an action whose type has
    no [.lower()] and otherwise goes on with the rest. *)
Theorem perform_action_sequence_app (raises : IEvent -> option string)
    (xs ys : list Action) :
  perform_action_sequence raises (xs ++ ys)
  = let '(ev, r) := perform_action_sequence raises xs in
    match r with
    | Some e => (ev, Some e)
    | None => let '(ev', r') := perform_action_sequence raises ys in (ev ++ ev', r')
    end.
Proof.
  induction xs as [|a xs IH]; simpl.
  - destruct (perform_action_sequence raises ys); reflexivity.
  - destruct (perform_action raises a) as [ev r]; destruct r as [e|]; [reflexivity|].
    rewrite IH.
    destruct (perform_action_sequence raises xs) as [ev1 r1]; destruct r1 as [e|];
      [reflexivity|].
    destruct (perform_action_sequence raises ys) as [ev2 r2].
    rewrite app_assoc; reflexivity.
Qed.

Definition type_is_text (a : Action) : bool :=
  match dict_get a "type" with
  | None | Some (PyStr _) => true
  | Some _ => false
  end.

(** Inside the [try], every failure is caught: when each action's [type] is
    absent or a string, the sequence always runs to its end, and the effects
    are those of the actions performed one by one; an action whose device
    call raises, or that misses a key, does not stop the ones after it. *)
Theorem perform_action_sequence_completes (raises : IEvent -> option string)
    (actions : list Action) :
  forallb type_is_text actions = true ->
  perform_action_sequence raises actions
  = (flat_map (fun a => fst (perform_action raises a)) actions, None).
Proof.
  induction actions as [|a actions IH]; simpl; [reflexivity|].
  intros H; apply andb_prop in H as [Ha Hs].
  assert (Hr : snd (perform_action raises a) = None).
  { unfold perform_action, type_is_text in *.
    destruct (dict_get a "type") as [[]|]; try discriminate;
      destruct (action_calls _ _) as [calls|]; try reflexivity;
      destruct (run raises calls) as [ev [e|]]; reflexivity. }
  destruct (perform_action raises a) as [ev r]; simpl in Hr; subst r.
  rewrite (IH Hs); reflexivity.
Qed.

Definition fail_screen (c : IEvent) : option string :=
  match c with
  | MoveTo (PyInt 0) (PyInt 0) => Some "FailSafeException"%string
  | _ => None
  end.

Lemma perform_action_sequence_completes_witness :
  let acts := [[("type"%string, PyStr "Click"); ("x"%string, PyInt 0); ("y"%string, PyInt 0)];
               [("type"%string, PyStr "key")];
               [("type"%string, PyStr "delay"); ("seconds"%string, PyFloat (1#2))]] in
  forallb type_is_text acts = true /\
  perform_action_sequence fail_screen acts
  = ([RandomDelay; LogError "click"; LogError "key"; Sleep (PyFloat (1#2))], None).
Proof.
  intros acts.
  assert (H : forallb type_is_text acts = true) by reflexivity.
  split; [exact H|].
  rewrite (perform_action_sequence_completes fail_screen acts H).
  reflexivity.
Defined.

(** [action.get('type', '').lower()] makes the dispatch case-insensitive: two
    actions that differ only in the case of their (ASCII) type do the same. *)
Theorem perform_action_case_insensitive (raises : IEvent -> option string)
    (s1 s2 : string) (a : Action) :
  lower s1 = lower s2 ->
  perform_action raises (("type"%string, PyStr s1) :: a)
  = perform_action raises (("type"%string, PyStr s2) :: a).
Proof.
  intros E; unfold perform_action; simpl; rewrite E.
  unfold action_calls, req, opt; simpl; reflexivity.
Qed.

Lemma perform_action_case_insensitive_witness :
  lower "DOUBLE_Click" = lower "double_click" /\
  perform_action (fun _ => None)
    [("type"%string, PyStr "DOUBLE_Click"); ("x"%string, PyInt 3); ("y"%string, PyInt 4)]
  = perform_action (fun _ => None)
    [("type"%string, PyStr "double_click"); ("x"%string, PyInt 3); ("y"%string, PyInt 4)].
Proof.
  assert (E : lower "DOUBLE_Click" = lower "double_click") by reflexivity.
  split; [exact E|].
  exact (perform_action_case_insensitive (fun _ => None) "DOUBLE_Click" "double_click"
           [("x"%string, PyInt 3); ("y"%string, PyInt 4)] E).
Defined.

(** A click, right-click or double-click action that lacks [x] or [y] raises
    [KeyError] before any mouse call: its only effect is one error log. *)
Theorem perform_action_click_missing_coordinate (raises : IEvent -> option string)
    (s : string) (a : Action) :
  dict_get a "type" = Some (PyStr s) ->
  In (lower s) ["click"; "right_click"; "double_click"]%string ->
  dict_get a "x" = None \/ dict_get a "y" = None ->
  perform_action raises a = ([LogError (lower s)], None).
Proof.
  intros Ht Hin Hxy; unfold perform_action; rewrite Ht.
  unfold action_calls, req.
  destruct Hxy as [Hx | Hy].
  - simpl in Hin; destruct Hin as [<- | [<- | [<- | []]]]; simpl; rewrite Hx; reflexivity.
  - simpl in Hin; destruct Hin as [<- | [<- | [<- | []]]]; simpl; rewrite Hy;
      destruct (dict_get a "x"); reflexivity.
Qed.

Lemma perform_action_click_missing_coordinate_witness :
  let a := [("type"%string, PyStr "Right_Click"); ("y"%string, PyInt 7)] in
  perform_action (fun _ => None) a = ([LogError "right_click"], None).
Proof.
  intros a.
  exact (perform_action_click_missing_coordinate (fun _ => None) "Right_Click" a eq_refl
           ltac:(simpl; tauto) (or_introl eq_refl)).
Defined.

End InputFacts.
